(** * SOAVector: a struct-of-arrays vector with a single allocation

    Shallow embedding of [src/soa.cpp] (class template [SOAVector<Types...>])
    and of the earlier revision of the same class that keeps [data_] and
    [data_offsets_] instead of [array_ptrs_].

    - [std::size_t] and [std::ptrdiff_t] are integers in [Z] with the 64-bit
      wrap-around written out ([to_size_t], [to_ptrdiff_t]).
    - The template parameter pack [Types...] is a list of [TypeInfo], the
      [sizeof] and [alignof] of every declared type.
    - The raw storage is a heap of byte blocks; a [char *] is a block
      identifier and a byte offset.  An element of type [T] is its object
      representation, [sizeof T] bytes. *)

From Stdlib Require Import ZArith Lia Strings.Byte Floats.SpecFloat.
From stdpp Require Import base option list gmap.

Local Open Scope Z_scope.

(** ** Machine integers *)

Definition to_size_t (z : Z) : Z := z mod 2 ^ 64.

Definition to_ptrdiff_t (z : Z) : Z := (z + 2 ^ 63) mod 2 ^ 64 - 2 ^ 63.

(** ** Element types *)

Record TypeInfo := { sizeof : Z; alignof : Z }.

(** What the language guarantees of every object type that the layout
    arithmetic relies on. *)
Definition type_ok (T : TypeInfo) : Prop := 0 < sizeof T ∧ 0 < alignof T.

Global Instance TypeInfo_inhabited : Inhabited TypeInfo :=
  populate {| sizeof := 1; alignof := 1 |}.

Definition int8_t : TypeInfo := {| sizeof := 1; alignof := 1 |}.
Definition int16_t : TypeInfo := {| sizeof := 2; alignof := 2 |}.
Definition int32_t : TypeInfo := {| sizeof := 4; alignof := 4 |}.
Definition int64_t : TypeInfo := {| sizeof := 8; alignof := 8 |}.
Definition double : TypeInfo := {| sizeof := 8; alignof := 8 |}.
(** [std::string] of libstdc++ on x86-64. *)
Definition std_string : TypeInfo := {| sizeof := 32; alignof := 8 |}.

(** ** Layout calculator: [getArrayOffsetsAndAllocationSize] *)

Section Layout.
Variable Types : list TypeInfo.

(** [sizeof...(Types)] *)
Definition N : nat := length Types.

(** [std::array{(sizeof(Types) * element_count)...}] *)
Definition sizes (element_count : Z) : list Z :=
  (λ T, to_size_t (sizeof T * element_count)) <$> Types.

(** [std::array{(alignof(Types))...}] *)
Definition alignments : list Z := alignof <$> Types.

(** One round of the [for] loop, at index [i]; [p] is the [ptrdiff_t]
    cursor.  The operands of [+ - / *] are converted to [size_t], the
    result is converted back on assignment. *)
Definition offsets_step (szs : list Z) (i : nat) (st : list Z * Z) : list Z * Z :=
  let '(offsets, p) := st in
  let a := alignments !!! i in
  let p := to_ptrdiff_t
             (to_size_t (to_size_t (to_size_t (to_size_t p + a) - 1) / a * a)) in
  let offsets := <[i := p]> offsets in
  let p := to_ptrdiff_t (to_size_t (to_size_t p + szs !!! i)) in
  (offsets, p).

(** [for (size_type i = 1; i < sizeof...(Types); ++i)], with [n] rounds
    left. *)
Fixpoint offsets_loop (szs : list Z) (n : nat) (i : nat) (st : list Z * Z)
  : list Z * Z :=
  match n with
  | O => st
  | S n' => offsets_loop szs n' (S i) (offsets_step szs i st)
  end.

Definition getArrayOffsetsAndAllocationSize (element_count : Z) : list Z * Z :=
  let szs := sizes element_count in
  (* std::array<ptrdiff_t, sizeof...(Types)> offsets{}; *)
  let offsets := replicate N 0 in
  (* ptrdiff_t p = alignments[0]; *)
  let p := to_ptrdiff_t (alignments !!! 0%nat) in
  let '(offsets, p) := offsets_loop szs (N - 1) 1 (offsets, p) in
  (offsets, to_size_t p).
End Layout.

(** ** Raw storage

    A heap of byte blocks.  [new char[n]] makes a fresh block, [delete[]]
    removes one.  An access outside a live block, or a failed [assert],
    leaves defined behaviour: it is recorded in the sticky flag [ub], the
    access itself has no effect, and execution goes on as a release build
    would. *)

Definition block := nat.

Inductive ptr := nullptr | Ptr (b : block) (off : Z).

Global Instance ptr_inhabited : Inhabited ptr := populate nullptr.

Global Instance ptr_eq_dec : EqDecision ptr.
Proof. solve_decision. Defined.

Definition ptr_add (p : ptr) (n : Z) : ptr :=
  match p with
  | nullptr => nullptr
  | Ptr b off => Ptr b (off + n)
  end.

Infix "+ₚ" := ptr_add (at level 50, left associativity).

(** [last - first], in bytes. *)
Definition ptr_diff (last first : ptr) : Z :=
  match last, first with
  | Ptr _ o1, Ptr _ o2 => o1 - o2
  | _, _ => 0
  end.

Record Mem := {
  blocks : gmap block (list byte);
  next_block : block;
  ub : bool
}.

Definition empty_mem : Mem := {| blocks := ∅; next_block := 0%nat; ub := false |}.

Definition fault (m : Mem) : Mem :=
  {| blocks := blocks m; next_block := next_block m; ub := true |}.

Definition assert (b : bool) (m : Mem) : Mem := if b then m else fault m.

(** [new (std::align_val_t(a)) char[n]]; fresh storage reads as zero bytes. *)
Definition new_array (n : Z) (m : Mem) : ptr * Mem :=
  (Ptr (next_block m) 0,
   {| blocks := <[next_block m := replicate (Z.to_nat n) x00]> (blocks m);
      next_block := S (next_block m);
      ub := ub m |}).

(** [delete[] p] *)
Definition delete_array (p : ptr) (m : Mem) : Mem :=
  match p with
  | nullptr => m
  | Ptr b 0 =>
      match blocks m !! b with
      | Some _ => {| blocks := delete b (blocks m);
                     next_block := next_block m; ub := ub m |}
      | None => fault m
      end
  | Ptr _ _ => fault m
  end.

Definition in_bounds (off n : Z) (bs : list byte) : bool :=
  (0 <=? off) && (0 <=? n) && (off + n <=? Z.of_nat (length bs)).

(** Read [n] bytes at [p]. *)
Definition load (p : ptr) (n : Z) (m : Mem) : option (list byte) :=
  match p with
  | nullptr => None
  | Ptr b off =>
      match blocks m !! b with
      | Some bs =>
          if in_bounds off n bs
          then Some (take (Z.to_nat n) (drop (Z.to_nat off) bs))
          else None
      | None => None
      end
  end.

(** Write the bytes [v] at [p]. *)
Definition store (p : ptr) (v : list byte) (m : Mem) : Mem :=
  match p with
  | nullptr => fault m
  | Ptr b off =>
      match blocks m !! b with
      | Some bs =>
          if in_bounds off (Z.of_nat (length v)) bs
          then {| blocks := <[b := take (Z.to_nat off) bs ++ v
                                   ++ drop (Z.to_nat off + length v) bs]> (blocks m);
                  next_block := next_block m; ub := ub m |}
          else fault m
      | None => fault m
      end
  end.

(** ** Element lifecycle: the static helpers

    An element of type [T] is [sizeof T] bytes.  Construction writes the
    bytes, copy and move construction read the source bytes and write them
    to the destination, destruction leaves the bytes alone (the element
    types of the model are trivially destructible). *)

(** The object representation of a value handed to a constructor of [T]:
    exactly [sizeof T] bytes. *)
Definition object_repr (T : TypeInfo) (value : list byte) : list byte :=
  resize (Z.to_nat (sizeof T)) x00 value.

(** [new(ptr) T(std::forward<T>(value))] *)
Definition createElement (T : TypeInfo) (p : ptr) (value : list byte) (m : Mem) : Mem :=
  store p (object_repr T value) m.

(** [reinterpret_cast<T *>(ptr)->~T()] *)
Definition deleteElement (T : TypeInfo) (p : ptr) (m : Mem) : Mem := m.

(** Number of rounds of [for (it = first; it != last; it += sizeof(T))]. *)
Definition rounds (T : TypeInfo) (first last : ptr) : nat :=
  Z.to_nat (ptr_diff last first / sizeof T).

Fixpoint defaultInitializeElements_loop (T : TypeInfo) (n : nat) (it : ptr) (m : Mem) : Mem :=
  match n with
  | O => m
  | S n' =>
      (* new(it) T(); *)
      let m := store it (object_repr T []) m in
      defaultInitializeElements_loop T n' (it +ₚ sizeof T) m
  end.

Definition defaultInitializeElements (T : TypeInfo) (first last : ptr) (m : Mem) : Mem :=
  defaultInitializeElements_loop T (rounds T first last) first m.

Fixpoint deleteElements_loop (T : TypeInfo) (n : nat) (it : ptr) (m : Mem) : Mem :=
  match n with
  | O => m
  | S n' => deleteElements_loop T n' (it +ₚ sizeof T) (deleteElement T it m)
  end.

Definition deleteElements (T : TypeInfo) (first last : ptr) (m : Mem) : Mem :=
  deleteElements_loop T (rounds T first last) first m.

(** Placement-new of a [T] at [dst] as a copy of the object at [src]. *)
Definition copy_construct (T : TypeInfo) (src dst : ptr) (m : Mem) : Mem :=
  match load src (sizeof T) m with
  | Some v => store dst v m
  | None => fault m
  end.

Fixpoint copyElements_loop (T : TypeInfo) (n : nat) (it dst_first : ptr) (m : Mem) : Mem :=
  match n with
  | O => m
  | S n' =>
      let m := copy_construct T it dst_first m in
      copyElements_loop T n' (it +ₚ sizeof T) (dst_first +ₚ sizeof T) m
  end.

Definition copyElements (T : TypeInfo) (first last dst_first : ptr) (m : Mem) : Mem :=
  copyElements_loop T (rounds T first last) first dst_first m.

Fixpoint moveElements_loop (T : TypeInfo) (n : nat) (it dst_first : ptr) (m : Mem) : Mem :=
  match n with
  | O => m
  | S n' =>
      (* placement-new of T at dst_first from std::move of the original *)
      let m := copy_construct T it dst_first m in
      (* original_obj_ptr->~T(); *)
      let m := deleteElement T it m in
      moveElements_loop T n' (it +ₚ sizeof T) (dst_first +ₚ sizeof T) m
  end.

Definition moveElements (T : TypeInfo) (first last dst_first : ptr) (m : Mem) : Mem :=
  moveElements_loop T (rounds T first last) first dst_first m.

(** ** [float] arithmetic of the growth rule

    [growth_factor] is a [float]; [size_ * growth_factor + 1] is computed in
    IEEE 754 binary32 (24-bit significand, round to nearest even) and
    converted to [size_type] by truncation. *)

Definition float := spec_float.

Definition float_of_Z (n : Z) : float := binary_normalize 24 128 n 0 false.

Definition float_mul : float → float → float := SFmul 24 128.

Definition float_add : float → float → float := SFadd 24 128.

(** [static constexpr float growth_factor = 1.5;] *)
Definition growth_factor : float := S754_finite false 12582912 (-23).

(** Conversion of a [float] to [size_type]: the fractional part is
    discarded; a value that does not fit has no defined result. *)
Definition float_to_size_t (f : float) : option Z :=
  match f with
  | S754_zero _ => Some 0
  | S754_finite false mx ex =>
      let n := if 0 <=? ex then Z.pos mx * 2 ^ ex else Z.pos mx / 2 ^ (- ex) in
      if n <? 2 ^ 64 then Some n else None
  | S754_finite true mx ex =>
      if Z.pos mx <? 2 ^ (- ex) then Some 0 else None
  | _ => None
  end.

(** [this->size_ * growth_factor + 1] as passed to [reserve]. *)
Definition growth_target (size : Z) : option Z :=
  float_to_size_t (float_add (float_mul (float_of_Z size) growth_factor) (float_of_Z 1)).

(** ** The container *)

Record SOAVector := {
  array_ptrs_ : list ptr;
  size_ : Z;
  capacity_ : Z
}.

Definition set_size (n : Z) (v : SOAVector) : SOAVector :=
  {| array_ptrs_ := array_ptrs_ v; size_ := n; capacity_ := capacity_ v |}.

Global Instance SOAVector_inhabited : Inhabited SOAVector :=
  populate {| array_ptrs_ := []; size_ := 0; capacity_ := 0 |}.

(** The address of an object. *)
Definition loc := nat.

(** The objects of a program and the heap they point into. *)
Record State := {
  objs : gmap loc SOAVector;
  heap : Mem
}.

Definition obj (st : State) (l : loc) : SOAVector := objs st !!! l.

(** Run a member function on the object at [this]. *)
Definition call (this : loc) (f : SOAVector → Mem → SOAVector * Mem)
    (st : State) : State :=
  let '(v, m) := f (obj st this) (heap st) in
  {| objs := <[this := v]> (objs st); heap := m |}.

(** The pack expansion [((f<Types>(..., type_index), ++type_index), ...)]:
    [f] runs once per declared type, in declaration order. *)
Fixpoint for_each_type {A : Type} (f : nat → TypeInfo → A → A)
    (type_index : nat) (Ts : list TypeInfo) (a : A) : A :=
  match Ts with
  | [] => a
  | T :: Ts' => for_each_type f (S type_index) Ts' (f type_index T a)
  end.

Section Container.
Variable Types : list TypeInfo.

(** [SOAVector() = default], for a value-initialised object: null array
    pointers, no elements, no capacity. *)
Definition SOAVector_default : SOAVector :=
  {| array_ptrs_ := replicate (N Types) nullptr; size_ := 0; capacity_ := 0 |}.

Definition empty (v : SOAVector) : bool := 0 <? size_ v.

Definition size (v : SOAVector) : Z := size_ v.

Definition capacity (v : SOAVector) : Z := capacity_ v.

Definition data (TypeIndex : nat) (v : SOAVector) : ptr :=
  array_ptrs_ v !!! TypeIndex.

(** [get<TypeIndex>(index)], read through the returned reference: the
    bytes of the element, nothing if the assertion fails or the reference
    does not point into live storage. *)
Definition get (TypeIndex : nat) (index : Z) (v : SOAVector) (m : Mem)
  : option (list byte) :=
  let T := Types !!! TypeIndex in
  if index <? size_ v
  then load (data TypeIndex v +ₚ index * sizeof T) (sizeof T) m
  else None.

Definition front (TypeIndex : nat) (v : SOAVector) (m : Mem) : option (list byte) :=
  get TypeIndex 0 v m.

Definition back (TypeIndex : nat) (v : SOAVector) (m : Mem) : option (list byte) :=
  get TypeIndex (to_size_t (size_ v - 1)) v m.

Definition clear (v : SOAVector) (m : Mem) : SOAVector * Mem :=
  let m :=
    if 0 <? size_ v then
      for_each_type (λ type_index T m,
        deleteElements T (array_ptrs_ v !!! type_index)
          (array_ptrs_ v !!! type_index +ₚ to_size_t (size_ v * sizeof T)) m)
        0 Types m
    else m in
  (set_size 0 v, m).

Definition reallocate (new_capacity : Z) (v : SOAVector) (m : Mem) : SOAVector * Mem :=
  let m := assert (size_ v <=? new_capacity) m in
  let '(new_offsets, total_num_bytes) :=
    getArrayOffsetsAndAllocationSize Types new_capacity in
  let '(new_data_ptr, m) := new_array total_num_bytes m in
  let new_array_ptrs := (λ off, new_data_ptr +ₚ off) <$> new_offsets in
  let m :=
    if 0 <? size_ v then
      for_each_type (λ type_index T m,
        moveElements T (array_ptrs_ v !!! type_index)
          (array_ptrs_ v !!! type_index +ₚ to_size_t (size_ v * sizeof T))
          (new_array_ptrs !!! type_index) m)
        0 Types m
    else m in
  let m := if 0 <? capacity_ v then delete_array (array_ptrs_ v !!! 0%nat) m else m in
  ({| array_ptrs_ := new_array_ptrs; size_ := size_ v; capacity_ := new_capacity |}, m).

Definition reserve (new_capacity : Z) (v : SOAVector) (m : Mem) : SOAVector * Mem :=
  if capacity_ v <? new_capacity then reallocate new_capacity v m else (v, m).

Definition shrink_to_fit (v : SOAVector) (m : Mem) : SOAVector * Mem :=
  if size_ v <? capacity_ v then reallocate (size_ v) v m else (v, m).

(** [push_back(Types&&... args)]: [args] holds one value per declared
    type. *)
Definition push_back (args : list (list byte)) (v : SOAVector) (m : Mem)
  : SOAVector * Mem :=
  let '(v, m) :=
    if capacity_ v <? to_size_t (size_ v + 1) then
      match growth_target (size_ v) with
      | Some new_capacity => reserve new_capacity v m
      | None => (v, fault m)
      end
    else (v, m) in
  let m :=
    for_each_type (λ type_index T m,
      createElement T
        (array_ptrs_ v !!! type_index +ₚ to_size_t (size_ v * sizeof T))
        (args !!! type_index) m)
      0 Types m in
  (set_size (to_size_t (size_ v + 1)) v, m).

Definition pop_back (v : SOAVector) (m : Mem) : SOAVector * Mem :=
  let m := assert (0 <? size_ v) m in
  let m :=
    for_each_type (λ type_index T m,
      deleteElement T
        (array_ptrs_ v !!! type_index +ₚ to_size_t (to_size_t (size_ v - 1) * sizeof T)) m)
      0 Types m in
  (set_size (to_size_t (size_ v - 1)) v, m).

(** [SOAVector(size_type size)] *)
Definition SOAVector_sized (size : Z) (m : Mem) : SOAVector * Mem :=
  let '(v, m) := reserve size SOAVector_default m in
  let v := set_size size v in
  let m :=
    if 0 <? size_ v then
      for_each_type (λ type_index T m,
        defaultInitializeElements T (array_ptrs_ v !!! type_index)
          (array_ptrs_ v !!! type_index +ₚ to_size_t (size_ v * sizeof T)) m)
        0 Types m
    else m in
  (v, m).

(** The element-wise copy shared by the copy constructor and copy
    assignment: [copyElements<Types>(other..., this->array_ptrs_[i])]. *)
Definition copy_from (other this : SOAVector) (m : Mem) : Mem :=
  if 0 <? size other then
    for_each_type (λ type_index T m,
      copyElements T (array_ptrs_ other !!! type_index)
        (array_ptrs_ other !!! type_index +ₚ to_size_t (size_ other * sizeof T))
        (array_ptrs_ this !!! type_index) m)
      0 Types m
  else m.

(** [SOAVector(SOAVector const & other)] *)
Definition SOAVector_copy (other : SOAVector) (m : Mem) : SOAVector * Mem :=
  let '(v, m) := reserve (size other) SOAVector_default m in
  let m := copy_from other v m in
  (set_size (size_ other) v, m).

(** [SOAVector(SOAVector && other)]: the new object, and [other]
    afterwards. *)
Definition SOAVector_move (other : SOAVector) : SOAVector * SOAVector :=
  ({| array_ptrs_ := array_ptrs_ other; size_ := size_ other;
      capacity_ := capacity_ other |},
   {| array_ptrs_ := replicate (length (array_ptrs_ other)) nullptr;
      size_ := 0; capacity_ := 0 |}).

(** [~SOAVector()] *)
Definition SOAVector_destroy (v : SOAVector) (m : Mem) : Mem :=
  if capacity_ v =? 0 then m
  else
    let m :=
      if 0 <? size_ v then
        for_each_type (λ type_index T m,
          deleteElements T (array_ptrs_ v !!! type_index)
            (array_ptrs_ v !!! type_index +ₚ to_size_t (size_ v * sizeof T)) m)
          0 Types m
      else m in
    delete_array (array_ptrs_ v !!! 0%nat) m.

(** *** Assignment

    Assignment involves two objects that may be the same one, so the
    objects live in a store and are named by their address. *)

(** [operator=(SOAVector<Types...> const & other)] *)
Definition copy_assign (this other : loc) (st : State) : State :=
  if decide (other = this) then st
  else
    let st := call this clear st in
    let st := call this (reserve (size (obj st other))) st in
    let st := call this (λ v m, (v, copy_from (obj st other) v m)) st in
    call this (λ v m, (set_size (size_ (obj st other)) v, m)) st.

(** [operator=(SOAVector<Types...> && other)] *)
Definition move_assign (this other : loc) (st : State) : State :=
  if decide (other = this) then st
  else
    let st := call this clear st in
    let st := call this (λ v m,
      (v, if 0 <? capacity_ v then delete_array (array_ptrs_ v !!! 0%nat) m else m)) st in
    let st := call this (λ _ m,
      ({| array_ptrs_ := array_ptrs_ (obj st other);
          size_ := size_ (obj st other);
          capacity_ := capacity_ (obj st other) |}, m)) st in
    call other (λ v m,
      ({| array_ptrs_ := replicate (length (array_ptrs_ v)) nullptr;
          size_ := 0; capacity_ := 0 |}, m)) st.
End Container.

(** ** The earlier revision of the class

    It keeps the block pointer [data_] and the offsets [data_offsets_]
    instead of the array pointers, and its two assignment operators begin
    with [this->clear()] at once.  The static helpers are the ones above
    under other names. *)

Module Legacy.

Record SOAVector := {
  data_ : ptr;
  data_offsets_ : list Z;
  size_ : Z;
  capacity_ : Z
}.

Definition set_data (p : ptr) (v : SOAVector) : SOAVector :=
  {| data_ := p; data_offsets_ := data_offsets_ v;
     size_ := size_ v; capacity_ := capacity_ v |}.

Definition set_data_offsets (offs : list Z) (v : SOAVector) : SOAVector :=
  {| data_ := data_ v; data_offsets_ := offs;
     size_ := size_ v; capacity_ := capacity_ v |}.

Definition set_size (n : Z) (v : SOAVector) : SOAVector :=
  {| data_ := data_ v; data_offsets_ := data_offsets_ v;
     size_ := n; capacity_ := capacity_ v |}.

Definition set_capacity (n : Z) (v : SOAVector) : SOAVector :=
  {| data_ := data_ v; data_offsets_ := data_offsets_ v;
     size_ := size_ v; capacity_ := n |}.

Global Instance SOAVector_inhabited : Inhabited SOAVector :=
  populate {| data_ := nullptr; data_offsets_ := []; size_ := 0; capacity_ := 0 |}.

Record State := {
  objs : gmap loc SOAVector;
  heap : Mem
}.

Definition obj (st : State) (l : loc) : SOAVector := objs st !!! l.

Definition call (this : loc) (f : SOAVector → Mem → SOAVector * Mem)
    (st : State) : State :=
  let '(v, m) := f (obj st this) (heap st) in
  {| objs := <[this := v]> (objs st); heap := m |}.

Definition deleteData := deleteElements.
Definition copyData := copyElements.
Definition moveData := moveElements.

Section Container.
Variable Types : list TypeInfo.

(** [SOAVector() = default] with the default member initialisers. *)
Definition SOAVector_default : SOAVector :=
  {| data_ := nullptr; data_offsets_ := replicate (N Types) 0;
     size_ := 0; capacity_ := 0 |}.

Definition size (v : SOAVector) : Z := size_ v.

Definition capacity (v : SOAVector) : Z := capacity_ v.

Definition data (TypeIndex : nat) (v : SOAVector) : ptr :=
  data_ v +ₚ data_offsets_ v !!! TypeIndex.

Definition get (TypeIndex : nat) (index : Z) (v : SOAVector) (m : Mem)
  : option (list byte) :=
  let T := Types !!! TypeIndex in
  if index <? size_ v
  then load (data TypeIndex v +ₚ index * sizeof T) (sizeof T) m
  else None.

Definition clear (v : SOAVector) (m : Mem) : SOAVector * Mem :=
  let m :=
    if 0 <? size_ v then
      for_each_type (λ type_index T m,
        deleteData T (data_ v +ₚ data_offsets_ v !!! type_index)
          (data_ v +ₚ data_offsets_ v !!! type_index
             +ₚ to_size_t (size_ v * sizeof T)) m)
        0 Types m
    else m in
  (set_size 0 v, m).

Definition reallocate (new_capacity : Z) (v : SOAVector) (m : Mem) : SOAVector * Mem :=
  let m := assert (size_ v <=? new_capacity) m in
  let '(new_offsets, total_num_bytes) :=
    getArrayOffsetsAndAllocationSize Types new_capacity in
  let '(new_data, m) := new_array total_num_bytes m in
  let m :=
    if 0 <? size_ v then
      for_each_type (λ type_index T m,
        moveData T (data_ v +ₚ data_offsets_ v !!! type_index)
          (data_ v +ₚ data_offsets_ v !!! type_index
             +ₚ to_size_t (size_ v * sizeof T))
          (new_data +ₚ new_offsets !!! type_index) m)
        0 Types m
    else m in
  let m := if 0 <? capacity_ v then delete_array (data_ v) m else m in
  ({| data_ := new_data; data_offsets_ := new_offsets;
      size_ := size_ v; capacity_ := new_capacity |}, m).

Definition reserve (new_capacity : Z) (v : SOAVector) (m : Mem) : SOAVector * Mem :=
  if capacity_ v <? new_capacity then reallocate new_capacity v m else (v, m).

Definition push_back (args : list (list byte)) (v : SOAVector) (m : Mem)
  : SOAVector * Mem :=
  let '(v, m) :=
    if capacity_ v <? to_size_t (size_ v + 1) then
      match growth_target (size_ v) with
      | Some new_capacity => reserve new_capacity v m
      | None => (v, fault m)
      end
    else (v, m) in
  let m :=
    for_each_type (λ type_index T m,
      createElement T
        (data_ v +ₚ data_offsets_ v !!! type_index +ₚ to_size_t (size_ v * sizeof T))
        (args !!! type_index) m)
      0 Types m in
  (set_size (to_size_t (size_ v + 1)) v, m).

(** [operator=(SOAVector<Types...> const & other)]; [other] is read
    through the reference each time the source names it. *)
Definition copy_assign (this other : loc) (st : State) : State :=
  let st := call this clear st in
  let st := call this (reserve (size (obj st other))) st in
  let st :=
    if 0 <? size (obj st other) then
      call this (λ v m,
        (v, for_each_type (λ type_index T m,
              copyData T
                (data_ (obj st other) +ₚ data_offsets_ (obj st other) !!! type_index)
                (data_ (obj st other) +ₚ data_offsets_ (obj st other) !!! type_index
                   +ₚ to_size_t (size_ (obj st other) * sizeof T))
                (data_ v +ₚ data_offsets_ v !!! type_index) m)
              0 Types m)) st
    else st in
  call this (λ v m, (set_size (size_ (obj st other)) v, m)) st.

(** [operator=(SOAVector<Types...> && other)] *)
Definition move_assign (this other : loc) (st : State) : State :=
  let st := call this clear st in
  let st := call this (λ v m,
    (v, if 0 <? capacity_ v then delete_array (data_ v) m else m)) st in
  let st := call this (λ v m, (set_data (data_ (obj st other)) v, m)) st in
  let st := call this (λ v m, (set_data_offsets (data_offsets_ (obj st other)) v, m)) st in
  let st := call this (λ v m, (set_size (size_ (obj st other)) v, m)) st in
  let st := call this (λ v m, (set_capacity (capacity_ (obj st other)) v, m)) st in
  let st := call other (λ v m, (set_data nullptr v, m)) st in
  let st := call other (λ v m, (set_size 0 v, m)) st in
  call other (λ v m, (set_capacity 0 v, m)) st.
End Container.

End Legacy.

(** ** Specification-level definitions *)

(** The layout as the specification words it: the first offset is the
    alignment of the first type, every later offset is the least aligned
    value at or after the end of the previous sub-range. *)
Definition least_aligned_from (lo a o : Z) : Prop :=
  lo ≤ o ∧ o mod a = 0 ∧ ∀ o', lo ≤ o' → o' mod a = 0 → o ≤ o'.

Definition layout_as_specified (Types : list TypeInfo) (capacity : Z)
    (offsets : list Z) : Prop :=
  offsets !! 0%nat = Some (alignof (Types !!! 0%nat)) ∧
  ∀ i : nat, (1 ≤ i < length Types)%nat →
    ∃ o o', offsets !! i = Some o ∧ offsets !! (i - 1)%nat = Some o' ∧
      least_aligned_from (o' + capacity * sizeof (Types !!! (i - 1)%nat))
                         (alignof (Types !!! i)) o.

Definition sumZ (l : list Z) : Z := foldr Z.add 0 l.

(** No wrap-around: the bytes of all sub-ranges and all paddings fit
    [ptrdiff_t]. *)
Definition layout_fits (Types : list TypeInfo) (capacity : Z) : Prop :=
  0 ≤ capacity ∧
  sumZ ((λ T, alignof T + sizeof T * capacity) <$> Types) < 2 ^ 63.


(** [(p + a - 1) / a * a], the rounding of the loop body without the
    integer conversions. *)
Definition round_up (p a : Z) : Z := (p + a - 1) / a * a.

(** The loop of the layout calculator on unbounded integers, from cursor
    [p], over the types that are still to be placed. *)
Fixpoint layout_from (capacity : Z) (p : Z) (Ts : list TypeInfo) : list Z * Z :=
  match Ts with
  | [] => ([], p)
  | T :: Ts' =>
      let o := round_up p (alignof T) in
      let '(os, e) := layout_from capacity (o + sizeof T * capacity) Ts' in
      (o :: os, e)
  end.

(** The layout the calculator produces: array 0 starts the block, every
    later offset is aligned, every offset from the third on is the least
    aligned value at or after the end of the sub-range before it, and the
    total is the end of the last sub-range. *)
Definition layout_by_design (Types : list TypeInfo) (capacity : Z)
    (offsets : list Z) (total_num_bytes : Z) : Prop :=
  length offsets = length Types ∧
  offsets !! 0%nat = Some 0 ∧
  (∀ (i : nat) o, (1 ≤ i)%nat → offsets !! i = Some o →
     o mod alignof (Types !!! i) = 0) ∧
  (∀ (i : nat) o o', (2 ≤ i)%nat →
     offsets !! i = Some o → offsets !! (i - 1)%nat = Some o' →
     least_aligned_from (o' + capacity * sizeof (Types !!! (i - 1)%nat))
                        (alignof (Types !!! i)) o) ∧
  ((2 ≤ length Types)%nat →
     ∃ o, offsets !! (length Types - 1)%nat = Some o ∧
          total_num_bytes = o + capacity * sizeof (Types !!! (length Types - 1)%nat)).

(** ** The public operations, on the objects of a program *)

Inductive operation :=
  | Construct (this : loc)
  | ConstructSized (this : loc) (size : Z)
  | ConstructCopy (this other : loc)
  | ConstructMove (this other : loc)
  | Destroy (this : loc)
  | CopyAssign (this other : loc)
  | MoveAssign (this other : loc)
  | Clear (this : loc)
  | PushBack (this : loc) (args : list (list byte))
  | PopBack (this : loc)
  | Reserve (this : loc) (new_capacity : Z)
  | ShrinkToFit (this : loc).

Definition exec (Types : list TypeInfo) (o : operation) (st : State) : State :=
  match o with
  | Construct this =>
      {| objs := <[this := SOAVector_default Types]> (objs st); heap := heap st |}
  | ConstructSized this size =>
      call this (λ _ m, SOAVector_sized Types size m) st
  | ConstructCopy this other =>
      call this (λ _ m, SOAVector_copy Types (obj st other) m) st
  | ConstructMove this other =>
      let '(v, other') := SOAVector_move (obj st other) in
      {| objs := <[this := v]> (<[other := other']> (objs st)); heap := heap st |}
  | Destroy this =>
      {| objs := delete this (objs st);
         heap := SOAVector_destroy Types (obj st this) (heap st) |}
  | CopyAssign this other => copy_assign Types this other st
  | MoveAssign this other => move_assign Types this other st
  | Clear this => call this (clear Types) st
  | PushBack this args => call this (push_back Types args) st
  | PopBack this => call this (pop_back Types) st
  | Reserve this new_capacity => call this (reserve Types new_capacity) st
  | ShrinkToFit this => call this (shrink_to_fit Types) st
  end.

Fixpoint run (Types : list TypeInfo) (ops : list operation) (st : State) : State :=
  match ops with
  | [] => st
  | o :: ops' => run Types ops' (exec Types o st)
  end.

(** Sizes up to which [size_ * growth_factor + 1] is computed without
    rounding in binary32. *)
Definition exact_growth_bound : Z := 2 ^ 22.



(** The invariant [0 <= size <= capacity] of one object, and of all
    objects of a program. *)
Definition size_le_capacity (v : SOAVector) : Prop := 0 ≤ size_ v ≤ capacity_ v.


(** The growth rule as the specification words it: the new capacity is
    [max(size * 1.5, size + 1)]. *)
Definition grows_as_specified (size new_capacity : Z) : Prop :=
  2 * new_capacity = Z.max (3 * size) (2 * size + 2).

(** Little-endian object representation of an integer of [n] bytes. *)
Fixpoint le_bytes (n : nat) (z : Z) : list byte :=
  match n with
  | O => []
  | S n' => default x00 (Byte.of_N (Z.to_N (z mod 256))) :: le_bytes n' (z / 256)
  end.

(** The blocks a container points into. *)
Definition ptr_block (p : ptr) : option block :=
  match p with
  | nullptr => None
  | Ptr b _ => Some b
  end.

Definition storage (v : SOAVector) : list block := omap ptr_block (array_ptrs_ v).

(** ** Concrete programs *)

(** A run of [push_back] calls, one per list of arguments. *)
Definition push_all (Types : list TypeInfo) (argss : list (list (list byte)))
    (vm : SOAVector * Mem) : SOAVector * Mem :=
  foldl (λ vm args, push_back Types args vm.1 vm.2) vm argss.

(** A fresh container on an empty heap. *)
Definition fresh (Types : list TypeInfo) : SOAVector * Mem :=
  (SOAVector_default Types, empty_mem).

(** [SOAVector<int16_t, int16_t>] after [push_back(10, 20)] and
    [push_back(11, 21)]. *)
Definition two_shorts : list TypeInfo := [int16_t; int16_t].

Definition two_shorts_pushed : SOAVector * Mem :=
  push_all two_shorts
    [ [le_bytes 2 10; le_bytes 2 20]; [le_bytes 2 11; le_bytes 2 21] ]
    (fresh two_shorts).

(** [SOAVector<int32_t, int8_t, int32_t>] after four pushes
    [(100 + k, 10 + k, 1000 + k)]. *)
Definition int_char_int : list TypeInfo := [int32_t; int8_t; int32_t].

Definition int_char_int_pushed : SOAVector * Mem :=
  push_all int_char_int
    [ [le_bytes 4 100; le_bytes 1 10; le_bytes 4 1000];
      [le_bytes 4 101; le_bytes 1 11; le_bytes 4 1001];
      [le_bytes 4 102; le_bytes 1 12; le_bytes 4 1002];
      [le_bytes 4 103; le_bytes 1 13; le_bytes 4 1003] ]
    (fresh int_char_int).

(** [SOAVector<int64_t, int32_t, int32_t>] after three pushes
    [(100 + k, 10 + k, 1000 + k)]. *)
Definition long_int_int : list TypeInfo := [int64_t; int32_t; int32_t].

Definition long_int_int_pushed : SOAVector * Mem :=
  push_all long_int_int
    [ [le_bytes 8 100; le_bytes 4 10; le_bytes 4 1000];
      [le_bytes 8 101; le_bytes 4 11; le_bytes 4 1001];
      [le_bytes 8 102; le_bytes 4 12; le_bytes 4 1002] ]
    (fresh long_int_int).

(** [SOAVector<int16_t, double>] after two pushes. *)
Definition short_double : list TypeInfo := [int16_t; double].

Definition short_double_pushed : SOAVector * Mem :=
  push_all short_double
    [ [le_bytes 2 1; le_bytes 8 10]; [le_bytes 2 2; le_bytes 8 20] ]
    (fresh short_double).

(** The types and the statements of [main]; the strings and the doubles
    stand as opaque object representations. *)
Definition main_types : list TypeInfo := [int16_t; std_string; double].


Definition no_objects : State := {| objs := ∅; heap := empty_mem |}.

(** The earlier revision: one object holding one element. *)
Definition legacy_one_element : Legacy.State :=
  let '(v, m) := Legacy.push_back short_double [le_bytes 2 1; le_bytes 8 10]
                   (Legacy.SOAVector_default short_double) empty_mem in
  {| Legacy.objs := {[ 0%nat := v ]}; Legacy.heap := m |}.


(** ** Relations between heaps *)

(** [m'] differs from [m] at most on the blocks that satisfy [S]. *)
Definition same_outside (S : block → Prop) (m m' : Mem) : Prop :=
  ∀ blk, ¬ S blk → blocks m' !! blk = blocks m !! blk.

(** [m'] has the blocks of [m], with the same lengths. *)
Definition same_shape (m m' : Mem) : Prop :=
  ∀ blk, length <$> blocks m' !! blk = length <$> blocks m !! blk.


(** A run of pushes and pops on one container; [None] stands for
    [pop_back()]. *)
Definition push_pop (Types : list TypeInfo) (vm : SOAVector * Mem)
    (o : option (list (list byte))) : SOAVector * Mem :=
  match o with
  | Some args => push_back Types args vm.1 vm.2
  | None => pop_back Types vm.1 vm.2
  end.

Definition push_pop_all (Types : list TypeInfo) (os : list (option (list (list byte))))
    (vm : SOAVector * Mem) : SOAVector * Mem :=
  foldl (push_pop Types) vm os.

(** Pushes minus pops, and whether every pop finds an element and every
    push finds fewer than [exact_growth_bound] elements, from [size] on. *)
Fixpoint size_after (os : list (option (list (list byte)))) (size : Z) : Z :=
  match os with
  | [] => size
  | Some _ :: os' => size_after os' (size + 1)
  | None :: os' => size_after os' (size - 1)
  end.

Fixpoint pops_guarded (os : list (option (list (list byte)))) (size : Z) : Prop :=
  match os with
  | [] => True
  | Some _ :: os' => size < exact_growth_bound ∧ pops_guarded os' (size + 1)
  | None :: os' => 0 < size ∧ pops_guarded os' (size - 1)
  end.

(** A step that allocates and releases nothing and writes only to blocks
    that satisfy [S]. *)
Definition writes_within (S : block → Prop) (m m' : Mem) : Prop :=
  same_outside S m m' ∧ same_shape m m' ∧ next_block m' = next_block m.

(** The blocks reached through a pointer. *)
Definition block_of (p : ptr) (blk : block) : Prop := ptr_block p = Some blk.

(** The object a member-function call works on, for the operations that
    involve one object only. *)
Definition member_of (o : operation) : option loc :=
  match o with
  | Clear this | PushBack this _ | PopBack this
  | Reserve this _ | ShrinkToFit this => Some this
  | _ => None
  end.

(** The heap holds exactly what the container owns: nothing when the
    capacity is 0, otherwise the one block behind [array_ptrs_[0]]. *)
Definition sole_owner (v : SOAVector) (m : Mem) : Prop :=
  0 ≤ capacity_ v ∧
  (capacity_ v = 0 → blocks m = ∅) ∧
  (0 < capacity_ v →
   ∃ b, array_ptrs_ v !!! 0%nat = Ptr b 0 ∧ b ≠ next_block m ∧
        ∀ blk, is_Some (blocks m !! blk) ↔ blk = b).

(** The member functions other than [shrink_to_fit], called with
    [size_type] arguments. *)
Definition grows_only (o : operation) : Prop :=
  match o with
  | Clear _ | PushBack _ _ | PopBack _ => True
  | Reserve _ new_capacity => 0 ≤ new_capacity
  | _ => False
  end.

(** * Theorems *)

(** ** Machine integers *)

Lemma to_size_t_small z : 0 ≤ z < 2 ^ 64 → to_size_t z = z.
Proof. intros. unfold to_size_t. apply Z.mod_small. lia. Qed.

Lemma to_ptrdiff_t_small z : - 2 ^ 63 ≤ z < 2 ^ 63 → to_ptrdiff_t z = z.
Proof. intros. unfold to_ptrdiff_t. rewrite Z.mod_small; lia. Qed.

(** ** Layout calculator *)

Lemma round_up_bounds p a : 0 < a → p ≤ round_up p a ≤ p + a - 1.
Proof.
  intros Ha. unfold round_up.
  pose proof (Z.div_mod (p + a - 1) a ltac:(lia)) as Hdm.
  pose proof (Z.mod_pos_bound (p + a - 1) a Ha) as Hm.
  lia.
Qed.

Lemma round_up_least p a : 0 < a → least_aligned_from p a (round_up p a).
Proof.
  intros Ha. pose proof (round_up_bounds p a Ha) as Hb.
  split; [lia|]. split.
  - unfold round_up. apply Z.mod_mul. lia.
  - intros o' Hlo Hmod.
    apply Z.mod_divide in Hmod; [|lia]. destruct Hmod as [k ->].
    unfold round_up in *. set (q := (p + a - 1) / a) in *.
    destruct (Z.le_gt_cases q k) as [Hqk|Hqk]; [nia|].
    assert (k + 1 ≤ q) as Hk by lia. nia.
Qed.

Lemma sumZ_cons z (l : list Z) : sumZ (z :: l) = z + sumZ l.
Proof. reflexivity. Qed.

Lemma sumZ_nonneg (l : list Z) : Forall (λ z, 0 ≤ z) l → 0 ≤ sumZ l.
Proof. induction 1; simpl; lia. Qed.

Lemma fits_nonneg capacity (Ts : list TypeInfo) :
  0 ≤ capacity → Forall type_ok Ts →
  0 ≤ sumZ ((λ T, alignof T + sizeof T * capacity) <$> Ts).
Proof.
  intros Hc HTs. apply sumZ_nonneg. apply Forall_fmap.
  eapply Forall_impl; [exact HTs|]. intros T [? ?]; simpl. nia.
Qed.

(** One round of the loop, when nothing wraps. *)
Lemma offsets_step_exact Types capacity (i : nat) T offsets p :
  Types !! i = Some T → type_ok T → 0 ≤ capacity → 0 ≤ p →
  p + alignof T + sizeof T * capacity < 2 ^ 63 →
  offsets_step Types (sizes Types capacity) i (offsets, p) =
    (<[i := round_up p (alignof T)]> offsets,
     round_up p (alignof T) + sizeof T * capacity).
Proof.
  intros HT [Hs Ha] Hc Hp Hfit. unfold offsets_step.
  assert (alignments Types !!! i = alignof T) as ->.
  { apply list_lookup_total_correct. unfold alignments.
    rewrite list_lookup_fmap, HT. done. }
  assert (sizes Types capacity !!! i = sizeof T * capacity) as ->.
  { apply list_lookup_total_correct. unfold sizes.
    rewrite list_lookup_fmap, HT. simpl. f_equal.
    apply to_size_t_small. nia. }
  pose proof (round_up_bounds p (alignof T) Ha) as Hb.
  assert (0 ≤ sizeof T * capacity) by nia.
  rewrite (to_size_t_small p) by lia.
  rewrite (to_size_t_small (p + alignof T)) by lia.
  rewrite (to_size_t_small (p + alignof T - 1)) by lia.
  fold (round_up p (alignof T)).
  rewrite (to_size_t_small (round_up _ _)) by lia.
  rewrite (to_ptrdiff_t_small (round_up _ _)) by lia.
  rewrite (to_size_t_small (round_up _ _)) by lia.
  rewrite to_size_t_small by lia.
  rewrite to_ptrdiff_t_small by lia.
  done.
Qed.

Lemma offsets_loop_S Types szs (n i : nat) st :
  offsets_loop Types szs (S n) i st
    = offsets_loop Types szs n (S i) (offsets_step Types szs i st).
Proof. reflexivity. Qed.

Lemma layout_from_cons capacity p T Ts :
  layout_from capacity p (T :: Ts) =
    (round_up p (alignof T)
       :: (layout_from capacity (round_up p (alignof T) + sizeof T * capacity) Ts).1,
     (layout_from capacity (round_up p (alignof T) + sizeof T * capacity) Ts).2).
Proof. cbn [layout_from]. by destruct (layout_from capacity _ Ts). Qed.

(** The loop from index [i] on, when nothing wraps: the offsets below [i]
    stay, the others are those of [layout_from]. *)
Lemma offsets_loop_exact Types capacity (n i : nat) offsets p :
  (i + n)%nat = length Types → length offsets = length Types →
  Forall type_ok Types → 0 ≤ capacity → 0 ≤ p →
  p + sumZ ((λ T, alignof T + sizeof T * capacity) <$> drop i Types) < 2 ^ 63 →
  offsets_loop Types (sizes Types capacity) n i (offsets, p) =
    (take i offsets ++ (layout_from capacity p (drop i Types)).1,
     (layout_from capacity p (drop i Types)).2).
Proof.
  revert i offsets p. induction n as [|n IH]; intros i offsets p Hin Hlen Hok Hc Hp Hfit.
  - simpl. rewrite drop_ge by lia. simpl.
    rewrite take_ge by lia. by rewrite app_nil_r.
  - destruct (Types !! i) as [T|] eqn:HT; [|apply lookup_ge_None in HT; lia].
    pose proof (proj1 (Forall_lookup _ _) Hok i T HT) as HokT.
    rewrite (drop_S _ _ _ HT) in Hfit |- *.
    rewrite fmap_cons, sumZ_cons in Hfit.
    rewrite offsets_loop_S, layout_from_cons.
    assert (Forall type_ok (drop (S i) Types)) as Hok' by (by apply Forall_drop).
    pose proof (fits_nonneg capacity _ Hc Hok') as Hnn.
    destruct HokT as [Hs Ha].
    pose proof (round_up_bounds p (alignof T) Ha) as Hb.
    assert (0 ≤ sizeof T * capacity) by nia.
    rewrite (offsets_step_exact _ _ _ T) by (done || lia).
    rewrite IH; [| lia | by rewrite length_insert | done | done | lia | lia].
    cbn [fst snd]. f_equal.
    rewrite (take_S_r _ _ (round_up p (alignof T))).
    + rewrite take_insert_ge by lia. by rewrite <- app_assoc.
    + apply list_lookup_insert_eq. lia.
Qed.

Lemma layout_from_length capacity p Ts :
  length (layout_from capacity p Ts).1 = length Ts.
Proof.
  revert p. induction Ts as [|T Ts IH]; intros p; [done|].
  cbn [layout_from]. specialize (IH (round_up p (alignof T) + sizeof T * capacity)).
  destruct (layout_from capacity _ Ts). simpl in *. by rewrite IH.
Qed.

(** Every offset is a multiple of the alignment of its type. *)
Lemma layout_from_aligned capacity p Ts (j : nat) o :
  Forall type_ok Ts →
  (layout_from capacity p Ts).1 !! j = Some o → o mod alignof (Ts !!! j) = 0.
Proof.
  revert p j. induction Ts as [|T Ts IH]; intros p j Hok Hj; [done|].
  rewrite layout_from_cons in Hj. simpl in Hj.
  inversion_clear Hok as [|? ? [_ Ha] Hok'].
  destruct j as [|j]; simpl in *.
  - injection Hj as <-. apply round_up_least. done.
  - eapply IH; eauto.
Qed.

(** Every offset but the first is the least aligned value from the end of
    the sub-range before it. *)
Lemma layout_from_chain capacity p Ts (j : nat) o o' :
  Forall type_ok Ts →
  (layout_from capacity p Ts).1 !! j = Some o' →
  (layout_from capacity p Ts).1 !! S j = Some o →
  least_aligned_from (o' + capacity * sizeof (Ts !!! j)) (alignof (Ts !!! S j)) o.
Proof.
  revert p j. induction Ts as [|T Ts IH]; intros p j Hok Hj HSj; [done|].
  rewrite layout_from_cons in Hj, HSj. simpl in Hj, HSj.
  inversion_clear Hok as [|? ? _ Hok'].
  destruct j as [|j]; simpl in *.
  - injection Hj as <-.
    destruct Ts as [|T' Ts]; [done|].
    rewrite layout_from_cons in HSj. simpl in HSj. injection HSj as <-.
    inversion_clear Hok' as [|? ? [_ Ha] _]. simpl.
    rewrite (Z.mul_comm capacity). by apply round_up_least.
  - eapply IH; eauto.
Qed.

(** The final cursor is the end of the last sub-range. *)
Lemma layout_from_end capacity p Ts :
  Ts ≠ [] →
  ∃ o, (layout_from capacity p Ts).1 !! (length Ts - 1)%nat = Some o ∧
       (layout_from capacity p Ts).2 = o + capacity * sizeof (Ts !!! (length Ts - 1)%nat).
Proof.
  revert p. induction Ts as [|T Ts IH]; intros p Hne; [done|].
  rewrite layout_from_cons.
  destruct Ts as [|T' Ts].
  - simpl. eexists; split; [done|]. lia.
  - destruct (IH (round_up p (alignof T) + sizeof T * capacity)) as (o & Ho & He); [done|].
    exists o.
    replace (length (T :: T' :: Ts) - 1)%nat with (S (length (T' :: Ts) - 1))
      by (simpl; lia).
    split; [exact Ho | exact He].
Qed.

Lemma layout_from_end_bounds capacity p Ts :
  0 ≤ capacity → Forall type_ok Ts →
  p ≤ (layout_from capacity p Ts).2
    ≤ p + sumZ ((λ T, alignof T + sizeof T * capacity) <$> Ts).
Proof.
  intros Hc. revert p. induction Ts as [|T Ts IH]; intros p Hok.
  - simpl. lia.
  - rewrite layout_from_cons, fmap_cons, sumZ_cons. simpl.
    inversion_clear Hok as [|? ? [Hs Ha] Hok'].
    specialize (IH (round_up p (alignof T) + sizeof T * capacity) Hok').
    pose proof (round_up_bounds p (alignof T) Ha). nia.
Qed.

(** The layout calculator in closed form, when nothing wraps: the first
    offset keeps its initial value 0 and the cursor starts at the alignment
    of the first type. *)
Lemma getArrayOffsetsAndAllocationSize_exact T0 Ts capacity :
  Forall type_ok (T0 :: Ts) → layout_fits (T0 :: Ts) capacity →
  getArrayOffsetsAndAllocationSize (T0 :: Ts) capacity =
    (0 :: (layout_from capacity (alignof T0) Ts).1,
     (layout_from capacity (alignof T0) Ts).2).
Proof.
  intros Hok [Hc Hfit]. rewrite fmap_cons, sumZ_cons in Hfit.
  inversion Hok as [|? ? [Hs Ha] Hok']; subst.
  pose proof (fits_nonneg capacity Ts Hc Hok') as Hnn.
  assert (0 ≤ sizeof T0 * capacity) by nia.
  unfold getArrayOffsetsAndAllocationSize.
  change (alignments (T0 :: Ts) !!! 0%nat) with (alignof T0).
  rewrite to_ptrdiff_t_small by lia.
  change (N (T0 :: Ts) - 1)%nat with (length Ts - 0)%nat. rewrite Nat.sub_0_r.
  rewrite offsets_loop_exact;
    [| done | unfold N; by rewrite length_replicate | done | done | lia
     | simpl; rewrite drop_0; lia ].
  change (drop 1 (T0 :: Ts)) with Ts.
  pose proof (layout_from_end_bounds capacity (alignof T0) Ts Hc Hok').
  rewrite to_size_t_small by lia. done.
Qed.

(** C1 (as amended).  For every capacity and every list of N >= 1 types
    whose layout does not overflow, the layout calculator returns N offsets
    with offsets[0] = 0; every offsets[i] with i >= 1 is a multiple of
    alignof(type[i]); for every i in [2, N), offsets[i] is the smallest value
    >= offsets[i-1] + capacity * sizeof(type[i-1]) that is a multiple of
    alignof(type[i]); and for N >= 2 the returned total is
    offsets[N-1] + capacity * sizeof(type[N-1]). *)
Theorem layout_offsets (Types : list TypeInfo) (capacity : Z) :
  Types ≠ [] → Forall type_ok Types → layout_fits Types capacity →
  layout_by_design Types capacity
    (getArrayOffsetsAndAllocationSize Types capacity).1
    (getArrayOffsetsAndAllocationSize Types capacity).2.
Proof.
  intros Hne Hok Hfit. destruct Types as [|T0 Ts]; [done|].
  rewrite getArrayOffsetsAndAllocationSize_exact by done. simpl.
  inversion_clear Hok as [|? ? _ Hok'].
  split; [|split; [done|split; [|split]]].
  - simpl. by rewrite layout_from_length.
  - intros [|i] o Hi Ho; [lia|]. simpl in Ho.
    change ((T0 :: Ts) !!! S i) with (Ts !!! i).
    by eapply layout_from_aligned.
  - intros [|[|i]] o o' Hi Ho Ho'; [lia..|].
    change ((T0 :: Ts) !!! S (S i)) with (Ts !!! S i).
    change ((T0 :: Ts) !!! (S (S i) - 1)%nat) with (Ts !!! i).
    change ((0 :: (layout_from capacity (alignof T0) Ts).1) !! S (S i))
      with ((layout_from capacity (alignof T0) Ts).1 !! S i) in Ho.
    change ((0 :: (layout_from capacity (alignof T0) Ts).1) !! (S (S i) - 1)%nat)
      with ((layout_from capacity (alignof T0) Ts).1 !! i) in Ho'.
    by eapply layout_from_chain.
  - intros HN. simpl in HN.
    destruct (layout_from_end capacity (alignof T0) Ts) as (o & Ho & He).
    { destruct Ts; [simpl in HN; lia | done]. }
    exists o.
    assert (length (T0 :: Ts) - 1 = S (length Ts - 1))%nat as ->.
    { simpl. destruct Ts; simpl in *; lia. }
    split; [exact Ho | exact He].
Qed.

Lemma layout_offsets_witness :
  layout_by_design [int16_t; std_string; double] 4 [0; 8; 136] 168.
Proof.
  apply (layout_offsets [int16_t; std_string; double] 4).
  - discriminate.
  - repeat constructor.
  - split; [lia | reflexivity].
Defined.

(** C1 (counterexample).  The layout worded by the specification is not the
    one computed: for the three types of the demonstration program the
    first offset is 0, not the alignment 2 of the first type. *)
Lemma layout_as_specified_fails :
  getArrayOffsetsAndAllocationSize [int16_t; std_string; double] 4
    = ([0; 8; 136], 168) ∧
  ¬ layout_as_specified [int16_t; std_string; double] 4 [0; 8; 136].
Proof.
  split; [reflexivity|]. intros [H0 _]. discriminate H0.
Qed.

(** The second offset is the alignment of the first type rounded up, whatever
    the capacity: the sub-range of array 0 is not counted. *)
Lemma layout_second_offset T0 T1 Ts capacity :
  Forall type_ok (T0 :: T1 :: Ts) → layout_fits (T0 :: T1 :: Ts) capacity →
  (getArrayOffsetsAndAllocationSize (T0 :: T1 :: Ts) capacity).1 !! 1%nat
    = Some (round_up (alignof T0) (alignof T1)).
Proof.
  intros Hok Hfit. rewrite getArrayOffsetsAndAllocationSize_exact by done.
  by rewrite layout_from_cons.
Qed.

(** With a single type the total is the alignment of the type, whatever the
    capacity. *)
Lemma layout_single_total T0 capacity :
  type_ok T0 → layout_fits [T0] capacity →
  getArrayOffsetsAndAllocationSize [T0] capacity = ([0], alignof T0).
Proof.
  intros Hok Hfit. rewrite getArrayOffsetsAndAllocationSize_exact; [done| |done].
  by apply Forall_singleton.
Qed.

(** ** Growth rule: binary32 arithmetic below [exact_growth_bound] *)

Lemma shiftl_nat_Z q (k : nat) :
  Z.pos (Pos.shiftl_nat q k) = Z.pos q * 2 ^ Z.of_nat k.
Proof.
  induction k as [|k IH].
  - simpl. lia.
  - rewrite Nat2Z.inj_succ, Z.pow_succ_r by lia.
    change (Pos.shiftl_nat q (S k)) with ((Pos.shiftl_nat q k)~0)%positive.
    rewrite (Pos2Z.inj_xO (Pos.shiftl_nat q k)), IH. lia.
Qed.

Lemma shiftl_nat_succ_r q (k : nat) :
  Pos.shiftl_nat q (S k) = Pos.shiftl_nat (q~0) k.
Proof.
  induction k as [|k IH]; [done|].
  change (Pos.shiftl_nat q (S (S k))) with ((Pos.shiftl_nat q (S k))~0)%positive.
  by rewrite IH.
Qed.

Lemma digits2_shiftl_nat q (k : nat) :
  Z.pos (digits2_pos (Pos.shiftl_nat q k)) = Z.pos (digits2_pos q) + Z.of_nat k.
Proof.
  induction k as [|k IH]; [simpl; lia|].
  change (Pos.shiftl_nat q (S k)) with ((Pos.shiftl_nat q k)~0)%positive.
  cbn [digits2_pos]. rewrite Pos2Z.inj_succ, IH. lia.
Qed.

Lemma digits2_pos_bounds q :
  2 ^ (Z.pos (digits2_pos q) - 1) ≤ Z.pos q < 2 ^ Z.pos (digits2_pos q).
Proof.
  induction q as [q IH|q IH|]; cbn [digits2_pos].
  - rewrite Pos2Z.inj_succ, (Pos2Z.inj_xI q).
    replace (Z.succ (Z.pos (digits2_pos q)) - 1) with (Z.succ (Z.pos (digits2_pos q) - 1)) by lia.
    rewrite !Z.pow_succ_r by lia.
    set (a := 2 ^ (Z.pos (digits2_pos q) - 1)) in *.
    set (b := 2 ^ Z.pos (digits2_pos q)) in *. clearbody a b. lia.
  - rewrite Pos2Z.inj_succ, (Pos2Z.inj_xO q).
    replace (Z.succ (Z.pos (digits2_pos q)) - 1) with (Z.succ (Z.pos (digits2_pos q) - 1)) by lia.
    rewrite !Z.pow_succ_r by lia.
    set (a := 2 ^ (Z.pos (digits2_pos q) - 1)) in *.
    set (b := 2 ^ Z.pos (digits2_pos q)) in *. clearbody a b. lia.
  - simpl. lia.
Qed.

Lemma digits2_pos_le q (d : Z) : 0 ≤ d → Z.pos q < 2 ^ d → Z.pos (digits2_pos q) ≤ d.
Proof.
  intros Hd Hq. pose proof (digits2_pos_bounds q) as [Hlo _].
  destruct (Z.le_gt_cases (Z.pos (digits2_pos q)) d) as [|Hgt]; [done|].
  assert (2 ^ d ≤ 2 ^ (Z.pos (digits2_pos q) - 1)) by (apply Z.pow_le_mono_r; lia).
  lia.
Qed.

Lemma digits2_pos_ge2 q : 2 ≤ Z.pos q → 2 ≤ Z.pos (digits2_pos q).
Proof.
  intros Hq. pose proof (digits2_pos_bounds q) as [_ Hhi].
  destruct (Z.le_gt_cases 2 (Z.pos (digits2_pos q))) as [|Hlt]; [done|].
  assert (Z.pos (digits2_pos q) = 1) as Heq by lia. rewrite Heq in Hhi. lia.
Qed.

Lemma iter_pos_nat {A} (f : A → A) p x :
  SpecFloat.iter_pos f p x = Nat.iter (Pos.to_nat p) f x.
Proof.
  revert x. induction p as [p IH|p IH|]; intros x; cbn [SpecFloat.iter_pos].
  - rewrite !IH, Pos2Nat.inj_xI. rewrite <- Nat.iter_succ_r.
    rewrite <- Nat.iter_add. f_equal. lia.
  - rewrite !IH, Pos2Nat.inj_xO. rewrite <- Nat.iter_add. f_equal. lia.
  - done.
Qed.

(** Shifting out zero bits is exact. *)
Lemma shr_exact q (k : nat) :
  Nat.iter k shr_1
    {| shr_m := Z.pos (Pos.shiftl_nat q k); shr_r := false; shr_s := false |}
  = {| shr_m := Z.pos q; shr_r := false; shr_s := false |}.
Proof.
  revert q. induction k as [|k IH]; intros q; [done|].
  rewrite Nat.iter_succ_r, shiftl_nat_succ_r.
  replace (shr_1 {| shr_m := Z.pos (Pos.shiftl_nat q~0 k); shr_r := false; shr_s := false |})
    with {| shr_m := Z.pos (Pos.shiftl_nat q k); shr_r := false; shr_s := false |}.
  - apply IH.
  - destruct k as [|k]; [done|].
    rewrite <- shiftl_nat_succ_r.
    change (Pos.shiftl_nat q (S (S k))) with ((Pos.shiftl_nat q (S k))~0)%positive.
    done.
Qed.

(** Rounding a significand whose excess low bits are zero only drops
    them. *)
Lemma binary_round_aux_exact q (k : nat) e :
  Z.pos (digits2_pos q) = 24 → -149 ≤ e + Z.of_nat k ≤ 104 →
  binary_round_aux 24 128 false (Z.pos (Pos.shiftl_nat q k)) e loc_Exact
    = S754_finite false q (e + Z.of_nat k).
Proof.
  intros Hd He. unfold binary_round_aux.
  assert (shr_fexp 24 128 (Z.pos (Pos.shiftl_nat q k)) e loc_Exact
          = ({| shr_m := Z.pos q; shr_r := false; shr_s := false |}, e + Z.of_nat k))
    as ->.
  { unfold shr_fexp. cbn [Zdigits2 shr_record_of_loc].
    rewrite digits2_shiftl_nat, Hd.
    assert (fexp 24 128 (24 + Z.of_nat k + e) - e = Z.of_nat k) as ->
      by (unfold fexp, emin; lia).
    unfold shr. destruct (Z.of_nat k) as [|p|p] eqn:Hk; [|f_equal|lia].
    - assert (k = 0%nat) as -> by lia. f_equal. lia.
    - rewrite iter_pos_nat.
      assert (Pos.to_nat p = k) as -> by lia. apply shr_exact. }
  cbn [shr_m loc_of_shr_record round_nearest_even].
  assert (shr_fexp 24 128 (Z.pos q) (e + Z.of_nat k) loc_Exact
          = ({| shr_m := Z.pos q; shr_r := false; shr_s := false |}, e + Z.of_nat k))
    as ->.
  { unfold shr_fexp. cbn [Zdigits2 shr_record_of_loc]. rewrite Hd.
    assert (fexp 24 128 (24 + (e + Z.of_nat k)) - (e + Z.of_nat k) = 0) as ->
      by (unfold fexp, emin; lia).
    done. }
  cbn [shr_m]. destruct (Z.leb_spec (e + Z.of_nat k) (128 - 24)); [done|lia].
Qed.

Lemma binary_round_exact q (k : nat) e :
  Z.pos (digits2_pos q) = 24 → -149 ≤ e + Z.of_nat k ≤ 104 →
  binary_round 24 128 false (Pos.shiftl_nat q k) e
    = S754_finite false q (e + Z.of_nat k).
Proof.
  intros Hd He. unfold binary_round.
  assert (shl_align (Pos.shiftl_nat q k) e
            (fexp 24 128 (Z.pos (digits2_pos (Pos.shiftl_nat q k)) + e))
          = (Pos.shiftl_nat q k, e)) as ->.
  { unfold shl_align. rewrite digits2_shiftl_nat, Hd.
    assert (fexp 24 128 (24 + Z.of_nat k + e) - e = Z.of_nat k) as ->
      by (unfold fexp, emin; lia).
    destruct (Z.of_nat k) eqn:Hk; [done|done|lia]. }
  by apply binary_round_aux_exact.
Qed.

(** A short significand is shifted left to 24 bits. *)
Lemma binary_round_short m e :
  Z.pos (digits2_pos m) ≤ 24 → -149 ≤ e + Z.pos (digits2_pos m) - 24 ≤ 104 →
  binary_round 24 128 false m e
    = S754_finite false (Pos.shiftl_nat m (Z.to_nat (24 - Z.pos (digits2_pos m))))
        (e - (24 - Z.pos (digits2_pos m))).
Proof.
  intros Hd He. unfold binary_round.
  set (d := Z.pos (digits2_pos m)) in *.
  assert (shl_align m e (fexp 24 128 (d + e))
          = (Pos.shiftl_nat m (Z.to_nat (24 - d)), e - (24 - d))) as ->.
  { unfold shl_align.
    assert (fexp 24 128 (d + e) = e - (24 - d)) as -> by (unfold fexp, emin; lia).
    destruct (e - (24 - d) - e) as [|p|p] eqn:Hsub; [|lia|].
    - assert (24 - d = 0) as -> by lia. simpl. f_equal. lia.
    - f_equal. rewrite Pos2Nat.inj_iter.
      assert (Z.to_nat (24 - d) = Pos.to_nat p) as -> by lia. done. }
  replace (e - (24 - d)) with (e - (24 - d) + Z.of_nat 0) at 2 by (simpl; lia).
  apply (binary_round_aux_exact (Pos.shiftl_nat m (Z.to_nat (24 - d))) 0).
  - rewrite digits2_shiftl_nat. fold d. lia.
  - simpl. lia.
Qed.

Lemma pow2_split (a b c : Z) : 0 ≤ a → 0 ≤ b → c = a + b → 2 ^ c = 2 ^ a * 2 ^ b.
Proof. intros ? ? ->. by apply Z.pow_add_r. Qed.

(** [float(n)] for a positive [n] of at most 24 bits. *)
Lemma float_of_Z_exact (pn : positive) :
  let dn := Z.pos (digits2_pos pn) in
  dn ≤ 24 →
  float_of_Z (Z.pos pn)
    = S754_finite false (Pos.shiftl_nat pn (Z.to_nat (24 - dn))) (dn - 24).
Proof.
  intros dn Hd. unfold float_of_Z. cbn [binary_normalize].
  rewrite binary_round_short by (fold dn; lia). fold dn. f_equal. lia.
Qed.

(** [float(n) * 1.5f] when [3 * n] has at most 24 bits. *)
Lemma float_mul_growth_exact (pn : positive) :
  let d3 := Z.pos (digits2_pos (3 * pn)) in
  d3 ≤ 24 →
  float_mul (float_of_Z (Z.pos pn)) growth_factor
    = S754_finite false (Pos.shiftl_nat (3 * pn) (Z.to_nat (24 - d3))) (d3 - 25).
Proof.
  intros d3 Hd3.
  pose proof (digits2_pos_bounds pn) as [Hlo Hhi].
  pose proof (digits2_pos_bounds (3 * pn)) as [Hlo3 Hhi3]. fold d3 in Hlo3, Hhi3.
  set (dn := Z.pos (digits2_pos pn)) in *.
  assert (2 ^ d3 ≤ 2 ^ 24) as Hp by (apply Z.pow_le_mono_r; lia).
  assert (dn ≤ d3) as Hdn.
  { apply digits2_pos_le; [lia|]. rewrite Pos2Z.inj_mul in Hhi3. lia. }
  assert (d3 ≤ dn + 2) as Hd3'.
  { apply digits2_pos_le; [lia|]. rewrite Pos2Z.inj_mul.
    rewrite (pow2_split dn 2 (dn + 2)) by lia. lia. }
  rewrite float_of_Z_exact by (fold dn; lia). fold dn.
  unfold float_mul, growth_factor. cbn [SFmul xorb].
  set (q3 := Pos.shiftl_nat (3 * pn) (Z.to_nat (24 - d3))).
  assert ((Pos.shiftl_nat pn (Z.to_nat (24 - dn)) * 12582912)%positive
          = Pos.shiftl_nat q3 (Z.to_nat (22 + d3 - dn))) as ->.
  { apply Pos2Z.inj. unfold q3. rewrite Pos2Z.inj_mul, !shiftl_nat_Z, Pos2Z.inj_mul.
    rewrite !Z2Nat.id by lia.
    change (Z.pos 12582912) with (3 * 2 ^ 22).
    assert (2 ^ (46 - dn) = 2 ^ (24 - d3) * 2 ^ (22 + d3 - dn)) as Hsplit
      by (apply pow2_split; lia).
    set (a := 2 ^ (24 - dn)) in *. set (b := 2 ^ (24 - d3)) in *.
    set (c := 2 ^ (22 + d3 - dn)) in *. set (e := 2 ^ 22) in *.
    assert (2 ^ (46 - dn) = a * e) as Hae by (apply pow2_split; lia).
    clearbody a b c e. nia. }
  rewrite binary_round_aux_exact.
  - f_equal. rewrite Z2Nat.id by lia. lia.
  - unfold q3. rewrite digits2_shiftl_nat. fold d3. rewrite Z2Nat.id by lia. lia.
  - rewrite Z2Nat.id by lia. lia.
Qed.

(** [x + 1] for [x = 3 * n / 2] when [3 * n + 2] has at most 24 bits. *)
Lemma float_add_one_exact (pn : positive) :
  let d3 := Z.pos (digits2_pos (3 * pn)) in
  let d' := Z.pos (digits2_pos (3 * pn + 2)) in
  d' ≤ 24 →
  float_add
    (S754_finite false (Pos.shiftl_nat (3 * pn) (Z.to_nat (24 - d3))) (d3 - 25))
    (float_of_Z 1)
  = S754_finite false (Pos.shiftl_nat (3 * pn + 2) (Z.to_nat (24 - d'))) (d' - 25).
Proof.
  intros d3 d' Hd'.
  pose proof (digits2_pos_bounds (3 * pn)) as [Hlo3 Hhi3]. fold d3 in Hlo3, Hhi3.
  pose proof (digits2_pos_bounds (3 * pn + 2)) as [Hlo' Hhi']. fold d' in Hlo', Hhi'.
  assert (2 ≤ d3) as H2 by (apply digits2_pos_ge2; lia).
  assert (2 ≤ d') as H2' by (apply digits2_pos_ge2; lia).
  assert (d3 ≤ d') as H3'.
  { apply digits2_pos_le; [lia|]. fold d3. rewrite Pos2Z.inj_add in Hhi'. lia. }
  change (float_of_Z 1) with (S754_finite false 8388608 (-23)).
  unfold float_add. cbn [SFadd cond_Zopp].
  assert (Z.min (d3 - 25) (-23) = -23) as -> by lia.
  set (q3 := Pos.shiftl_nat (3 * pn) (Z.to_nat (24 - d3))).
  assert ((shl_align q3 (d3 - 25) (-23)).1 = Pos.shiftl_nat q3 (Z.to_nat (d3 - 2)))
    as ->.
  { unfold shl_align. destruct (-23 - (d3 - 25)) as [|p|p] eqn:Hsub; [|lia|].
    - assert (d3 - 2 = 0) as -> by lia. done.
    - cbn [fst]. rewrite Pos2Nat.inj_iter.
      assert (Z.to_nat (d3 - 2) = Pos.to_nat p) as -> by lia. done. }
  change ((shl_align 8388608 (-23) (-23)).1) with 8388608%positive.
  set (q' := Pos.shiftl_nat (3 * pn + 2) (Z.to_nat (24 - d'))).
  assert (Z.pos (Pos.shiftl_nat q3 (Z.to_nat (d3 - 2))) + Z.pos 8388608
          = Z.pos (Pos.shiftl_nat q' (Z.to_nat (d' - 2)))) as ->.
  { unfold q3, q'. rewrite !shiftl_nat_Z, !Z2Nat.id by lia.
    rewrite Pos2Z.inj_add, Pos2Z.inj_mul.
    change (Z.pos 8388608) with (2 * 2 ^ 22).
    assert (2 ^ 22 = 2 ^ (24 - d3) * 2 ^ (d3 - 2)) as H22 by (apply pow2_split; lia).
    assert (2 ^ 22 = 2 ^ (24 - d') * 2 ^ (d' - 2)) as H22' by (apply pow2_split; lia).
    set (a := 2 ^ (24 - d3)) in *. set (b := 2 ^ (d3 - 2)) in *.
    set (a' := 2 ^ (24 - d')) in *. set (b' := 2 ^ (d' - 2)) in *.
    set (e := 2 ^ 22) in *. clearbody a b a' b' e. nia. }
  cbn [binary_normalize].
  rewrite binary_round_exact.
  - f_equal. rewrite Z2Nat.id by lia. lia.
  - unfold q'. rewrite digits2_shiftl_nat. fold d'. rewrite Z2Nat.id by lia. lia.
  - rewrite Z2Nat.id by lia. lia.
Qed.

(** Below [exact_growth_bound] the growth rule is [floor (1.5 * n) + 1]. *)
Lemma growth_target_exact n :
  0 ≤ n < exact_growth_bound → growth_target n = Some (3 * n / 2 + 1).
Proof.
  unfold exact_growth_bound. intros [Hn0 Hn].
  destruct n as [|pn|pn]; [reflexivity| |lia].
  pose proof (digits2_pos_bounds (3 * pn + 2)) as [Hlo' Hhi'].
  assert (Z.pos (digits2_pos (3 * pn)) ≤ 24) as Hd3
    by (apply digits2_pos_le; [lia|]; rewrite Pos2Z.inj_mul; lia).
  assert (Z.pos (digits2_pos (3 * pn + 2)) ≤ 24) as Hd'
    by (apply digits2_pos_le; [lia|]; rewrite Pos2Z.inj_add, Pos2Z.inj_mul; lia).
  assert (2 ≤ Z.pos (digits2_pos (3 * pn + 2))) as H2'
    by (apply digits2_pos_ge2; lia).
  unfold growth_target.
  rewrite float_mul_growth_exact, float_add_one_exact by done.
  set (d' := Z.pos (digits2_pos (3 * pn + 2))) in *.
  unfold float_to_size_t.
  destruct (Z.leb_spec 0 (d' - 25)) as [|_]; [lia|].
  rewrite shiftl_nat_Z, Z2Nat.id by lia.
  assert (2 ^ (- (d' - 25)) = 2 * 2 ^ (24 - d')) as ->.
  { replace (- (d' - 25)) with (Z.succ (24 - d')) by lia.
    apply Z.pow_succ_r. lia. }
  assert (0 < 2 ^ (24 - d')) by (apply Z.pow_pos_nonneg; lia).
  rewrite Z.div_mul_cancel_r by lia.
  rewrite Pos2Z.inj_add, Pos2Z.inj_mul.
  change (Z.pos 3 * Z.pos pn + Z.pos 2) with (3 * Z.pos pn + 1 * 2).
  rewrite Z.div_add by lia.
  destruct (Z.ltb_spec (3 * Z.pos pn / 2 + 1) (2 ^ 64)) as [|Hbig]; [done|].
  assert (3 * Z.pos pn / 2 < 2 ^ 24) by (apply Z.div_lt_upper_bound; lia).
  lia.
Qed.


(** ** Size and capacity after each member function *)

Section Fields.
Variable Types : list TypeInfo.

Lemma reallocate_size n v m : size_ (reallocate Types n v m).1 = size_ v.
Proof.
  unfold reallocate. by destruct (getArrayOffsetsAndAllocationSize Types n).
Qed.

Lemma reallocate_capacity n v m : capacity_ (reallocate Types n v m).1 = n.
Proof.
  unfold reallocate. by destruct (getArrayOffsetsAndAllocationSize Types n).
Qed.

Lemma reserve_size n v m : size_ (reserve Types n v m).1 = size_ v.
Proof.
  unfold reserve. destruct (capacity_ v <? n); [apply reallocate_size | done].
Qed.

Lemma reserve_capacity n v m :
  capacity_ (reserve Types n v m).1 = Z.max (capacity_ v) n.
Proof.
  unfold reserve. destruct (Z.ltb_spec (capacity_ v) n).
  - rewrite reallocate_capacity. lia.
  - simpl. lia.
Qed.

Lemma shrink_to_fit_size v m : size_ (shrink_to_fit Types v m).1 = size_ v.
Proof.
  unfold shrink_to_fit. destruct (size_ v <? capacity_ v); [apply reallocate_size | done].
Qed.

Lemma shrink_to_fit_capacity v m :
  capacity_ (shrink_to_fit Types v m).1 = Z.min (capacity_ v) (size_ v).
Proof.
  unfold shrink_to_fit. destruct (Z.ltb_spec (size_ v) (capacity_ v)).
  - rewrite reallocate_capacity. lia.
  - simpl. lia.
Qed.

Lemma push_back_size args v m :
  size_ (push_back Types args v m).1 = to_size_t (size_ v + 1).
Proof.
  unfold push_back.
  destruct (capacity_ v <? to_size_t (size_ v + 1)); [|done].
  destruct (growth_target (size_ v)) as [c|]; [|done].
  pose proof (reserve_size c v m) as Hs.
  destruct (reserve Types c v m) as [v' m']. simpl in *. by rewrite Hs.
Qed.

Lemma push_back_capacity args v m :
  0 ≤ size_ v < exact_growth_bound →
  capacity_ (push_back Types args v m).1 =
    if capacity_ v <? size_ v + 1 then 3 * size_ v / 2 + 1 else capacity_ v.
Proof.
  intros Hs. unfold push_back, exact_growth_bound in *.
  rewrite to_size_t_small by lia.
  destruct (Z.ltb_spec (capacity_ v) (size_ v + 1)) as [Hlt|Hge]; [|done].
  rewrite growth_target_exact by done.
  pose proof (reserve_capacity (3 * size_ v / 2 + 1) v m) as Hc.
  destruct (reserve Types _ v m) as [v' m']. simpl in *. rewrite Hc.
  assert (size_ v + 1 ≤ 3 * size_ v / 2 + 1); [|lia].
  assert (size_ v ≤ 3 * size_ v / 2); [|lia].
  apply Z.div_le_lower_bound; lia.
Qed.
End Fields.

(** ** Invariant *)

Section Invariant.
Variable Types : list TypeInfo.








Lemma push_back_inv args v m :
  size_le_capacity v → size_ v < exact_growth_bound →
  size_le_capacity (push_back Types args v m).1.
Proof.
  unfold size_le_capacity. intros [Hs Hc] Hb.
  rewrite push_back_size, push_back_capacity by lia.
  unfold exact_growth_bound in Hb. rewrite to_size_t_small by lia.
  destruct (Z.ltb_spec (capacity_ v) (size_ v + 1)); [|lia].
  assert (size_ v ≤ 3 * size_ v / 2); [|lia].
  apply Z.div_le_lower_bound; lia.
Qed.




Lemma call_obj_eq this f st :
  obj (call this f st) this = (f (obj st this) (heap st)).1.
Proof.
  unfold call. destruct (f (obj st this) (heap st)) as [v m].
  unfold obj. simpl. by rewrite lookup_total_insert_eq.
Qed.


Lemma call_heap this f st :
  heap (call this f st) = (f (obj st this) (heap st)).2.
Proof. unfold call. by destruct (f (obj st this) (heap st)). Qed.




End Invariant.

(** ** Memory effects of the helpers *)

Lemma deleteElements_loop_mem T n it m : deleteElements_loop T n it m = m.
Proof. revert it. induction n as [|n IH]; intros it; [done|]. simpl. apply IH. Qed.

Lemma deleteElements_mem T first last m : deleteElements T first last m = m.
Proof. apply deleteElements_loop_mem. Qed.

Lemma for_each_type_id {A} (f : nat → TypeInfo → A → A) i Ts a :
  (∀ j T x, f j T x = x) → for_each_type f i Ts a = a.
Proof.
  intros Hf. revert i a. induction Ts as [|T Ts IH]; intros i a; [done|].
  simpl. by rewrite Hf, IH.
Qed.

Lemma clear_mem Types v m : (clear Types v m).2 = m.
Proof.
  unfold clear. simpl. destruct (0 <? size_ v); [|done].
  apply for_each_type_id. intros. apply deleteElements_mem.
Qed.

Lemma delete_array_other p m blk :
  ptr_block p ≠ Some blk → blocks (delete_array p m) !! blk = blocks m !! blk.
Proof.
  intros Hne. destruct p as [|b off]; [done|]. simpl in *.
  destruct off; try done.
  destruct (blocks m !! b); [|done]. simpl.
  apply lookup_delete_ne. congruence.
Qed.


Lemma ptr_block_add p n : ptr_block (p +ₚ n) = ptr_block p.
Proof. by destruct p. Qed.

Lemma lookup_total_storage v (i : nat) blk :
  ptr_block (array_ptrs_ v !!! i) = Some blk → blk ∈ storage v.
Proof.
  intros Hb. unfold storage. apply list_elem_of_omap.
  exists (array_ptrs_ v !!! i). split; [|done].
  rewrite list_lookup_total_alt in Hb |- *.
  destruct (array_ptrs_ v !! i) as [p|] eqn:Hi; simpl in *; [|done].
  by eapply list_elem_of_lookup_2.
Qed.

(** ** Claims *)

(** C4 (as amended).  For every container below 2^22 elements where
    size + 1 > capacity, push_back grows the capacity to exactly
    floor(size * 1.5) + 1, the value of size * growth_factor + 1 converted
    to an integer, and after the push size() has increased by one; the
    array pointers after the push are those of the block allocated for the
    grown capacity, so the new elements are constructed in it. *)
Theorem push_back_growth Types args v m :
  0 ≤ size v < exact_growth_bound → capacity v < size v + 1 →
  capacity (push_back Types args v m).1 = 3 * size v / 2 + 1 ∧
  size (push_back Types args v m).1 = size v + 1 ∧
  array_ptrs_ (push_back Types args v m).1 =
    (λ off, Ptr (next_block m) 0 +ₚ off)
      <$> (getArrayOffsetsAndAllocationSize Types (3 * size v / 2 + 1)).1.
Proof.
  unfold size, capacity. intros Hs Hc.
  rewrite push_back_capacity, push_back_size by done.
  unfold exact_growth_bound in Hs. rewrite to_size_t_small by lia.
  destruct (Z.ltb_spec (capacity_ v) (size_ v + 1)) as [_|]; [|lia].
  split; [done|]. split; [done|].
  unfold push_back. rewrite to_size_t_small by lia.
  destruct (Z.ltb_spec (capacity_ v) (size_ v + 1)) as [_|]; [|lia].
  rewrite growth_target_exact by done.
  assert (size_ v ≤ 3 * size_ v / 2) by (apply Z.div_le_lower_bound; lia).
  unfold reserve.
  destruct (Z.ltb_spec (capacity_ v) (3 * size_ v / 2 + 1)) as [_|]; [|lia].
  unfold reallocate.
  destruct (getArrayOffsetsAndAllocationSize Types (3 * size_ v / 2 + 1)) as [offs tot].
  simpl. by destruct (size_ v <=? 3 * size_ v / 2 + 1).
Qed.

(** C4 (counterexample).  The growth rule worded by the specification fails
    at size 2: the third push of a container takes the capacity from 2 to
    4, not to max(2 * 1.5, 2 + 1) = 3. *)
Lemma growth_not_as_specified :
  size short_double_pushed.1 = 2 ∧ capacity short_double_pushed.1 = 2 ∧
  capacity (push_back short_double [le_bytes 2 3; le_bytes 8 30]
              short_double_pushed.1 short_double_pushed.2).1 = 4 ∧
  ¬ grows_as_specified 2 4.
Proof.
  split; [reflexivity|]. split; [reflexivity|]. split; [reflexivity|].
  unfold grows_as_specified. lia.
Qed.

Lemma push_back_growth_witness :
  capacity (push_back short_double [le_bytes 2 3; le_bytes 8 30]
              short_double_pushed.1 short_double_pushed.2).1 = 4 ∧
  size (push_back short_double [le_bytes 2 3; le_bytes 8 30]
          short_double_pushed.1 short_double_pushed.2).1 = 3 ∧
  array_ptrs_ (push_back short_double [le_bytes 2 3; le_bytes 8 30]
                 short_double_pushed.1 short_double_pushed.2).1
    = [Ptr 2%nat 0; Ptr 2%nat 8].
Proof.
  apply (push_back_growth short_double [le_bytes 2 3; le_bytes 8 30]
           short_double_pushed.1 short_double_pushed.2).
  - split; vm_compute; [discriminate | reflexivity].
  - vm_compute. reflexivity.
Defined.

(** C5 (the code at the failing inputs).  [empty()] returns [size_ > 0]: it
    is false for a container that holds no element and true for one that
    holds an element. *)
Theorem empty_is_inverted :
  (∀ v, empty v = true ↔ 0 < size v) ∧
  size (SOAVector_default main_types) = 0 ∧
  empty (SOAVector_default main_types) = false ∧
  size two_shorts_pushed.1 = 2 ∧
  empty two_shorts_pushed.1 = true.
Proof.
  split.
  - intros v. unfold empty, size. apply Z.ltb_lt.
  - repeat split; reflexivity.
Qed.

(** C8.  For every container and every n less than or equal to the current
    capacity, reserve(n) changes nothing: the container, the heap, and so
    capacity(), size() and every element read through get are the same. *)
Theorem reserve_no_op Types n v m :
  n ≤ capacity v →
  reserve Types n v m = (v, m) ∧
  capacity (reserve Types n v m).1 = capacity v ∧
  size (reserve Types n v m).1 = size v ∧
  ∀ i k, get Types i k (reserve Types n v m).1 (reserve Types n v m).2
         = get Types i k v m.
Proof.
  unfold capacity. intros Hn.
  assert (reserve Types n v m = (v, m)) as ->; [|done].
  unfold reserve. destruct (Z.ltb_spec (capacity_ v) n); [lia|done].
Qed.

Lemma reserve_no_op_witness :
  reserve short_double 1 short_double_pushed.1 short_double_pushed.2
    = (short_double_pushed.1, short_double_pushed.2) ∧
  capacity (reserve short_double 1 short_double_pushed.1 short_double_pushed.2).1
    = capacity short_double_pushed.1 ∧
  size (reserve short_double 1 short_double_pushed.1 short_double_pushed.2).1
    = size short_double_pushed.1 ∧
  ∀ i k, get short_double i k
           (reserve short_double 1 short_double_pushed.1 short_double_pushed.2).1
           (reserve short_double 1 short_double_pushed.1 short_double_pushed.2).2
         = get short_double i k short_double_pushed.1 short_double_pushed.2.
Proof.
  apply (reserve_no_op short_double 1 short_double_pushed.1 short_double_pushed.2).
  vm_compute. discriminate.
Defined.



(** Repeated pushes on a fresh container: the size is the number of pushes
    and never exceeds the capacity. *)
Lemma repeated_pushes_within_capacity Types argss :
  Z.of_nat (length argss) ≤ exact_growth_bound →
  size (push_all Types argss (fresh Types)).1 = Z.of_nat (length argss) ∧
  size (push_all Types argss (fresh Types)).1
    ≤ capacity (push_all Types argss (fresh Types)).1.
Proof.
  assert (∀ vm, size_le_capacity vm.1 →
            size_ vm.1 + Z.of_nat (length argss) ≤ exact_growth_bound →
            size_ (push_all Types argss vm).1 = size_ vm.1 + Z.of_nat (length argss) ∧
            size_le_capacity (push_all Types argss vm).1) as Hgen.
  { induction argss as [|args argss IH]; intros vm Hinv Hb.
    - simpl. split; [lia|done].
    - unfold push_all in *. simpl foldl. cbn [length] in Hb |- *.
      rewrite Nat2Z.inj_succ in Hb |- *.
      destruct Hinv as [Hs Hc].
      destruct (IH (push_back Types args vm.1 vm.2)) as [IH1 IH2].
      + apply push_back_inv; [done|lia].
      + rewrite push_back_size. unfold exact_growth_bound in *.
        rewrite to_size_t_small by lia. lia.
      + split; [|done]. rewrite IH1, push_back_size.
        unfold exact_growth_bound in *. rewrite to_size_t_small by lia. lia. }
  intros Hb. destruct (Hgen (fresh Types)) as [H1 [H2 H3]].
  - split; simpl; lia.
  - simpl. lia.
  - unfold size, capacity. simpl in H1. split; lia.
Qed.

Lemma obj_insert_eq (M : gmap loc SOAVector) m l v :
  obj {| objs := <[l := v]> M; heap := m |} l = v.
Proof. unfold obj. simpl. apply lookup_total_insert_eq. Qed.





(** C2 (the code at the failing input).  On [SOAVector<int16_t, int16_t>],
    after [push_back(10, 20)] and [push_back(11, 21)], with no access
    outside the block, [size()] is 2 and [get<1>(0)] reads 11, the value
    pushed second into array 0, instead of 20. *)
Theorem push_back_overwrites_other_array :
  size two_shorts_pushed.1 = 2 ∧
  ub two_shorts_pushed.2 = false ∧
  array_ptrs_ two_shorts_pushed.1 = [Ptr 1%nat 0; Ptr 1%nat 2] ∧
  get two_shorts 0%nat 1 two_shorts_pushed.1 two_shorts_pushed.2
    = Some (le_bytes 2 11) ∧
  get two_shorts 1%nat 0 two_shorts_pushed.1 two_shorts_pushed.2
    = Some (le_bytes 2 11) ∧
  get two_shorts 1%nat 0 two_shorts_pushed.1 two_shorts_pushed.2
    ≠ Some (le_bytes 2 20).
Proof. repeat split; try reflexivity. vm_compute. discriminate. Qed.

(** C3 (the code at the failing input).  On
    [SOAVector<int32_t, int8_t, int32_t>] holding four elements at
    capacity 4, [reserve(5)] sets the capacity to 5 and keeps the size, with
    no access outside the blocks, but [get<0>(3)] reads 103 before and 102
    after: moving array 2 to its new offset overwrites the fourth element
    of array 0. *)
Theorem reserve_changes_live_element :
  let '(v, m) := int_char_int_pushed in
  let '(v', m') := reserve int_char_int 5 v m in
  size v = 4 ∧ capacity v = 4 ∧ ub m = false ∧
  size v' = 4 ∧ capacity v' = 5 ∧ ub m' = false ∧
  get int_char_int 0%nat 3 v m = Some (le_bytes 4 103) ∧
  get int_char_int 0%nat 3 v' m' = Some (le_bytes 4 102).
Proof. vm_compute. repeat split; reflexivity. Qed.

(** C9 (the code at the failing input).  On
    [SOAVector<int64_t, int32_t, int32_t>] holding three elements at
    capacity 4, [shrink_to_fit()] sets the capacity to 3 and keeps the
    size, with no access outside the blocks, but the bytes of [get<0>(2)]
    change: moving array 2 to its new offset overwrites the upper half of
    the third element of array 0. *)
Theorem shrink_to_fit_changes_live_element :
  let '(v, m) := long_int_int_pushed in
  let '(v', m') := shrink_to_fit long_int_int v m in
  size v = 3 ∧ capacity v = 4 ∧ ub m = false ∧
  size v' = 3 ∧ capacity v' = 3 ∧ ub m' = false ∧
  get long_int_int 0%nat 2 v m = Some (le_bytes 4 12 ++ le_bytes 4 0) ∧
  get long_int_int 0%nat 2 v' m' = Some (le_bytes 4 12 ++ le_bytes 4 1000).
Proof. vm_compute. repeat split; reflexivity. Qed.

(** When the capacity already equals the size, [shrink_to_fit] changes
    nothing; when it shrinks, capacity becomes the size and the size stays. *)
Lemma shrink_to_fit_no_op Types v m :
  capacity v ≤ size v → shrink_to_fit Types v m = (v, m).
Proof.
  unfold capacity, size, shrink_to_fit. intros H.
  destruct (Z.ltb_spec (size_ v) (capacity_ v)); [lia|done].
Qed.

Lemma shrink_to_fit_fields Types v m :
  size v < capacity v →
  capacity (shrink_to_fit Types v m).1 = size v ∧
  size (shrink_to_fit Types v m).1 = size v.
Proof.
  unfold capacity, size. intros H.
  rewrite shrink_to_fit_capacity, shrink_to_fit_size. lia.
Qed.

(** After a growing [reserve] the capacity is the requested one and the size
    is unchanged. *)
Lemma reserve_grows_fields Types n v m :
  capacity v < n →
  capacity (reserve Types n v m).1 = n ∧ size (reserve Types n v m).1 = size v.
Proof.
  unfold capacity, size. intros H. rewrite reserve_capacity, reserve_size. lia.
Qed.

(** In [src/soa.cpp] both assignment operators return at once on
    self-assignment: objects and heap are unchanged. *)
Lemma self_assignment_guarded Types this st :
  copy_assign Types this this st = st ∧ move_assign Types this this st = st.
Proof.
  unfold copy_assign, move_assign. by destruct (decide (this = this)).
Qed.

(** C6 (the code at the failing input).  In the earlier revision, on an
    object holding one element, [A = A] leaves [size()] at 0: the element
    is gone; and [A = std::move(A)] frees the block and leaves [A] with
    a null block pointer, size 0 and capacity 0. *)
Theorem legacy_self_assignment_loses_elements :
  let st := legacy_one_element in
  let st_copy := Legacy.copy_assign short_double 0%nat 0%nat st in
  let st_move := Legacy.move_assign short_double 0%nat 0%nat st in
  Legacy.size (Legacy.obj st 0%nat) = 1 ∧
  Legacy.capacity (Legacy.obj st 0%nat) = 1 ∧
  Legacy.get short_double 0%nat 0 (Legacy.obj st 0%nat) (Legacy.heap st)
    = Some (le_bytes 2 1) ∧
  Legacy.size (Legacy.obj st_copy 0%nat) = 0 ∧
  Legacy.get short_double 0%nat 0 (Legacy.obj st_copy 0%nat) (Legacy.heap st_copy)
    = None ∧
  Legacy.size (Legacy.obj st_move 0%nat) = 0 ∧
  Legacy.capacity (Legacy.obj st_move 0%nat) = 0 ∧
  Legacy.data_ (Legacy.obj st_move 0%nat) = nullptr ∧
  blocks (Legacy.heap st_move) = ∅.
Proof. vm_compute. repeat split; reflexivity. Qed.

(** * Further properties of the code *)

(** ** Heaps: what an operation may change *)

Lemma same_outside_refl S m : same_outside S m m.
Proof. by intros blk _. Qed.

Lemma same_outside_trans S m1 m2 m3 :
  same_outside S m1 m2 → same_outside S m2 m3 → same_outside S m1 m3.
Proof. intros H12 H23 blk Hblk. by rewrite H23, H12. Qed.

Lemma same_outside_mono (S S' : block → Prop) m m' :
  (∀ blk, S blk → S' blk) → same_outside S m m' → same_outside S' m m'.
Proof. intros HS H blk Hblk. apply H. intros HSb. by apply Hblk, HS. Qed.

Lemma same_shape_refl m : same_shape m m.
Proof. by intros blk. Qed.

Lemma same_shape_trans m1 m2 m3 :
  same_shape m1 m2 → same_shape m2 m3 → same_shape m1 m3.
Proof. intros H12 H23 blk. by rewrite H23, H12. Qed.

Lemma in_bounds_length off v bs :
  in_bounds off (Z.of_nat (length v)) bs = true →
  length (take (Z.to_nat off) bs ++ v ++ drop (Z.to_nat off + length v) bs)
    = length bs.
Proof.
  unfold in_bounds. intros H.
  apply andb_prop in H as [H Hhi]. apply andb_prop in H as [Hlo _].
  apply Z.leb_le in Hlo, Hhi.
  rewrite !length_app, length_take, length_drop. lia.
Qed.

Lemma store_blocks p v m :
  blocks (store p v m) = blocks m ∨
  ∃ b off bs, p = Ptr b off ∧ blocks m !! b = Some bs ∧
    in_bounds off (Z.of_nat (length v)) bs = true ∧
    blocks (store p v m)
      = <[b := take (Z.to_nat off) bs ++ v ++ drop (Z.to_nat off + length v) bs]>
          (blocks m).
Proof.
  destruct p as [|b off]; [by left|]. simpl.
  destruct (blocks m !! b) as [bs|] eqn:Hb; [|by left].
  destruct (in_bounds off (Z.of_nat (length v)) bs) eqn:Hin; [|by left].
  right. by exists b, off, bs.
Qed.

Lemma store_same_outside p v m :
  same_outside (λ blk, ptr_block p = Some blk) m (store p v m).
Proof.
  intros blk Hblk. destruct (store_blocks p v m) as [->|(b & off & bs & -> & _ & _ & ->)];
    [done|].
  apply lookup_insert_ne. simpl in Hblk. congruence.
Qed.

Lemma store_same_shape p v m : same_shape m (store p v m).
Proof.
  intros blk. destruct (store_blocks p v m) as [->|(b & off & bs & -> & Hb & Hin & ->)];
    [done|].
  destruct (decide (b = blk)) as [->|Hne].
  - rewrite lookup_insert_eq, Hb. simpl. f_equal. by apply in_bounds_length.
  - by rewrite lookup_insert_ne.
Qed.

Lemma store_next_block p v m : next_block (store p v m) = next_block m.
Proof.
  destruct p as [|b off]; [done|]. simpl.
  destruct (blocks m !! b) as [bs|]; [|done].
  by destruct (in_bounds off (Z.of_nat (length v)) bs).
Qed.

Lemma copy_construct_same_outside T src dst m :
  same_outside (λ blk, ptr_block dst = Some blk) m (copy_construct T src dst m).
Proof.
  unfold copy_construct. destruct (load src (sizeof T) m).
  - apply store_same_outside.
  - by intros blk _.
Qed.

Lemma copy_construct_same_shape T src dst m :
  same_shape m (copy_construct T src dst m).
Proof.
  unfold copy_construct. destruct (load src (sizeof T) m).
  - apply store_same_shape.
  - by intros blk.
Qed.

Lemma copy_construct_next_block T src dst m :
  next_block (copy_construct T src dst m) = next_block m.
Proof.
  unfold copy_construct. destruct (load src (sizeof T) m); [|done].
  apply store_next_block.
Qed.

Lemma writes_within_refl S m : writes_within S m m.
Proof. split; [apply same_outside_refl|]. split; [apply same_shape_refl|done]. Qed.

Lemma writes_within_trans S m1 m2 m3 :
  writes_within S m1 m2 → writes_within S m2 m3 → writes_within S m1 m3.
Proof.
  intros (Ho1 & Hs1 & Hn1) (Ho2 & Hs2 & Hn2). split; [|split].
  - by eapply same_outside_trans.
  - by eapply same_shape_trans.
  - congruence.
Qed.

Lemma writes_within_mono (S S' : block → Prop) m m' :
  (∀ blk, S blk → S' blk) → writes_within S m m' → writes_within S' m m'.
Proof.
  intros HS (Ho & Hs & Hn). split; [|done]. by eapply same_outside_mono.
Qed.

Lemma fault_writes_within S m : writes_within S m (fault m).
Proof. split; [by intros blk _|]. split; [by intros blk|done]. Qed.

Lemma assert_writes_within S b m : writes_within S m (assert b m).
Proof. destruct b; [apply writes_within_refl | apply fault_writes_within]. Qed.

Lemma store_writes_within p v m : writes_within (block_of p) m (store p v m).
Proof.
  split; [apply store_same_outside|].
  split; [apply store_same_shape | apply store_next_block].
Qed.

Lemma copy_construct_writes_within T src dst m :
  writes_within (block_of dst) m (copy_construct T src dst m).
Proof.
  split; [apply copy_construct_same_outside|].
  split; [apply copy_construct_same_shape | apply copy_construct_next_block].
Qed.

Lemma block_of_add p n blk : block_of (p +ₚ n) blk ↔ block_of p blk.
Proof. unfold block_of. by rewrite ptr_block_add. Qed.

Lemma createElement_writes_within T p value m :
  writes_within (block_of p) m (createElement T p value m).
Proof. apply store_writes_within. Qed.



Lemma moveElements_writes_within T first last dst_first m :
  writes_within (block_of dst_first) m (moveElements T first last dst_first m).
Proof.
  unfold moveElements. generalize (rounds T first last). intros n.
  revert first dst_first m.
  induction n as [|n IH]; intros it dst m; [apply writes_within_refl|].
  simpl. unfold deleteElement.
  eapply writes_within_trans; [apply copy_construct_writes_within|].
  eapply writes_within_mono; [|apply IH]. intros blk. apply block_of_add.
Qed.

Lemma for_each_type_writes_within S (f : nat → TypeInfo → Mem → Mem) i Ts m :
  (∀ j T m0, writes_within S m0 (f j T m0)) →
  writes_within S m (for_each_type f i Ts m).
Proof.
  intros Hf. revert i m. induction Ts as [|T Ts IH]; intros i m;
    [apply writes_within_refl|].
  simpl. eapply writes_within_trans; [apply Hf | apply IH].
Qed.

Lemma block_of_storage v (i : nat) blk :
  block_of (array_ptrs_ v !!! i) blk → blk ∈ storage v.
Proof. apply lookup_total_storage. Qed.

(** [new char[n]] and [delete[]] against the blocks that were there. *)
Lemma new_array_same_outside n m :
  same_outside (λ blk, blk = next_block m) m (new_array n m).2.
Proof. intros blk Hblk. simpl. by apply lookup_insert_ne. Qed.

Lemma delete_array_same_outside p m :
  same_outside (block_of p) m (delete_array p m).
Proof. intros blk Hblk. by apply delete_array_other. Qed.

Lemma delete_array_next_block p m : next_block (delete_array p m) = next_block m.
Proof.
  destruct p as [|b off]; [done|]. simpl. destruct off; try done.
  by destruct (blocks m !! b).
Qed.

(** ** Reallocation *)

Lemma lookup_total_fmap_ptr (b : block) (offs : list Z) (i : nat) blk :
  block_of (((λ off, Ptr b 0 +ₚ off) <$> offs) !!! i) blk → blk = b.
Proof.
  unfold block_of. rewrite list_lookup_total_alt, list_lookup_fmap.
  destruct (offs !! i); simpl; [|done]. by intros [= <-].
Qed.

Lemma storage_fmap_ptr (b : block) (offs : list Z) blk :
  blk ∈ omap ptr_block ((λ off, Ptr b 0 +ₚ off) <$> offs) → blk = b.
Proof.
  intros (p & Hp & Hblk)%list_elem_of_omap.
  apply list_elem_of_fmap in Hp as (off & -> & _). simpl in Hblk. congruence.
Qed.

(** [reallocate] makes one block, the next one; the container points into
    it and nowhere else; only that block and the one behind
    [array_ptrs_[0]] can differ afterwards. *)
Lemma reallocate_spec Types n v m :
  array_ptrs_ (reallocate Types n v m).1
    = (λ off, Ptr (next_block m) 0 +ₚ off)
        <$> (getArrayOffsetsAndAllocationSize Types n).1 ∧
  next_block (reallocate Types n v m).2 = S (next_block m) ∧
  same_outside
    (λ blk, blk = next_block m ∨ block_of (array_ptrs_ v !!! 0%nat) blk)
    m (reallocate Types n v m).2.
Proof.
  unfold reallocate.
  destruct (getArrayOffsetsAndAllocationSize Types n) as [offs tot]. simpl.
  set (m0 := assert (size_ v <=? n) m).
  assert (next_block m0 = next_block m ∧ blocks m0 = blocks m) as [Hn0 Hb0]
    by (unfold m0; by destruct (size_ v <=? n)).
  rewrite Hn0.
  set (m1 := {| blocks := <[next_block m := replicate (Z.to_nat tot) x00]> (blocks m0);
                next_block := S (next_block m); ub := ub m0 |}).
  set (new_ptrs := (λ off, Ptr (next_block m) 0 +ₚ off) <$> offs).
  match goal with |- context [if 0 <? size_ v then ?a else m1] =>
    set (m2 := if 0 <? size_ v then a else m1) end.
  assert (writes_within (λ blk, blk = next_block m) m1 m2) as (Ho2 & _ & Hn2).
  { unfold m2. destruct (0 <? size_ v); [|apply writes_within_refl].
    apply for_each_type_writes_within. intros j T mj.
    eapply writes_within_mono; [|apply moveElements_writes_within].
    intros blk. apply lookup_total_fmap_ptr. }
  split; [done|]. split.
  - destruct (0 <? capacity_ v); [rewrite delete_array_next_block|]; by rewrite Hn2.
  - intros blk Hblk. cbv beta in Hblk.
    assert (blocks m2 !! blk = blocks m !! blk) as Hm2.
    { rewrite Ho2 by (cbv beta; tauto). unfold m1. simpl.
      rewrite lookup_insert_ne by (intros Heq; apply Hblk; by left). by rewrite Hb0. }
    destruct (0 <? capacity_ v); [|done].
    rewrite delete_array_other; [done|]. intros Hown. apply Hblk. by right.
Qed.

Lemma reallocate_storage Types n v m blk :
  blk ∈ storage (reallocate Types n v m).1 → blk = next_block m.
Proof.
  unfold storage. destruct (reallocate_spec Types n v m) as (-> & _ & _).
  apply storage_fmap_ptr.
Qed.

Lemma reallocate_next_block_le Types n v m :
  next_block (reallocate Types n v m).2 = S (next_block m).
Proof. apply reallocate_spec. Qed.

(** ** Member functions: what they may touch *)

Section Frame.
Variable Types : list TypeInfo.







End Frame.




(** ** push_back, pop_back and clear *)

Lemma pop_back_nonempty Types v m :
  0 < size_ v → pop_back Types v m = (set_size (to_size_t (size_ v - 1)) v, m).
Proof.
  intros Hs. unfold pop_back. rewrite for_each_type_id by done.
  by destruct (Z.ltb_spec 0 (size_ v)); [|lia].
Qed.

(** X2.  pop_back on a container holding elements (size a [size_type]
    value) lowers size() by one, keeps capacity() and the array pointers,
    writes nothing, and every element below the new size reads as
    before. *)
Theorem pop_back_keeps_the_rest Types v m :
  0 < size v < 2 ^ 64 →
  size (pop_back Types v m).1 = size v - 1 ∧
  capacity (pop_back Types v m).1 = capacity v ∧
  array_ptrs_ (pop_back Types v m).1 = array_ptrs_ v ∧
  (pop_back Types v m).2 = m ∧
  ∀ i k, k < size v - 1 →
    get Types i k (pop_back Types v m).1 (pop_back Types v m).2 = get Types i k v m.
Proof.
  unfold size, capacity. intros [Hs Hb]. rewrite pop_back_nonempty by done.
  unfold set_size at 1 2 3. cbn [fst snd size_ capacity_ array_ptrs_].
  rewrite to_size_t_small by lia. repeat (split; [done|]).
  intros i k Hk. unfold get, data, set_size. cbn [size_ array_ptrs_].
  destruct (Z.ltb_spec k (size_ v - 1)); [|lia].
  destruct (Z.ltb_spec k (size_ v)); [done|lia].
Qed.

Lemma pop_back_keeps_the_rest_witness :
  size (pop_back two_shorts two_shorts_pushed.1 two_shorts_pushed.2).1
    = size two_shorts_pushed.1 - 1 ∧
  capacity (pop_back two_shorts two_shorts_pushed.1 two_shorts_pushed.2).1
    = capacity two_shorts_pushed.1 ∧
  array_ptrs_ (pop_back two_shorts two_shorts_pushed.1 two_shorts_pushed.2).1
    = array_ptrs_ two_shorts_pushed.1 ∧
  (pop_back two_shorts two_shorts_pushed.1 two_shorts_pushed.2).2
    = two_shorts_pushed.2 ∧
  ∀ i k, k < size two_shorts_pushed.1 - 1 →
    get two_shorts i k (pop_back two_shorts two_shorts_pushed.1 two_shorts_pushed.2).1
      (pop_back two_shorts two_shorts_pushed.1 two_shorts_pushed.2).2
    = get two_shorts i k two_shorts_pushed.1 two_shorts_pushed.2.
Proof.
  apply (pop_back_keeps_the_rest two_shorts two_shorts_pushed.1 two_shorts_pushed.2).
  split; vm_compute; reflexivity.
Defined.

(** X3.  pop_back on a container with size() == 0 fails its assertion;
    when execution goes on, size_ wraps around to 2^64 - 1 while the
    capacity stays, so size() exceeds capacity() for every capacity a
    [size_type] can hold below that. *)
Theorem pop_back_on_empty_wraps Types v m :
  size v = 0 →
  ub (pop_back Types v m).2 = true ∧
  size (pop_back Types v m).1 = 2 ^ 64 - 1 ∧
  capacity (pop_back Types v m).1 = capacity v.
Proof.
  unfold size, capacity, pop_back. intros Hs. rewrite Hs.
  rewrite for_each_type_id by done. repeat split.
Qed.

Lemma pop_back_on_empty_wraps_witness :
  ub (pop_back main_types (SOAVector_default main_types) empty_mem).2 = true ∧
  size (pop_back main_types (SOAVector_default main_types) empty_mem).1 = 2 ^ 64 - 1 ∧
  capacity (pop_back main_types (SOAVector_default main_types) empty_mem).1
    = capacity (SOAVector_default main_types).
Proof.
  apply (pop_back_on_empty_wraps main_types (SOAVector_default main_types) empty_mem).
  reflexivity.
Defined.

Lemma push_back_spare_writes Types args v m :
  0 ≤ size v → size v + 1 ≤ capacity v → capacity v < 2 ^ 64 →
  (push_back Types args v m).1 = set_size (size v + 1) v ∧
  writes_within (λ blk, blk ∈ storage v) m (push_back Types args v m).2.
Proof.
  unfold size, capacity. intros Hs Hc Hb. unfold push_back.
  rewrite to_size_t_small by lia.
  destruct (Z.ltb_spec (capacity_ v) (size_ v + 1)); [lia|].
  cbn [fst snd]. split; [by rewrite to_size_t_small by lia|].
  apply for_each_type_writes_within. intros j T mj.
  eapply writes_within_mono; [|apply createElement_writes_within].
  intros blk Hblk%block_of_add. by eapply block_of_storage.
Qed.

(** X4.  push_back on a container with spare capacity (size + 1 <=
    capacity) allocates and releases nothing: the array pointers and the
    capacity stay, no block appears or disappears or changes length, and
    size() grows by one. *)
Theorem push_back_with_spare_capacity Types args v m :
  0 ≤ size v → size v + 1 ≤ capacity v → capacity v < 2 ^ 64 →
  array_ptrs_ (push_back Types args v m).1 = array_ptrs_ v ∧
  capacity (push_back Types args v m).1 = capacity v ∧
  size (push_back Types args v m).1 = size v + 1 ∧
  next_block (push_back Types args v m).2 = next_block m ∧
  same_shape m (push_back Types args v m).2.
Proof.
  intros Hs Hc Hb.
  destruct (push_back_spare_writes Types args v m Hs Hc Hb)
    as (Hv & _ & Hshape & Hnext).
  rewrite Hv. unfold size, capacity, set_size.
  cbn [array_ptrs_ capacity_ size_]. done.
Qed.

Lemma push_back_with_spare_capacity_witness :
  let args := [le_bytes 2 4; le_bytes 8 40] in
  let vm := push_back short_double [le_bytes 2 3; le_bytes 8 30]
              short_double_pushed.1 short_double_pushed.2 in
  array_ptrs_ (push_back short_double args vm.1 vm.2).1 = array_ptrs_ vm.1 ∧
  capacity (push_back short_double args vm.1 vm.2).1 = capacity vm.1 ∧
  size (push_back short_double args vm.1 vm.2).1 = size vm.1 + 1 ∧
  next_block (push_back short_double args vm.1 vm.2).2 = next_block vm.2 ∧
  same_shape vm.2 (push_back short_double args vm.1 vm.2).2.
Proof.
  intros args vm. apply (push_back_with_spare_capacity short_double args vm.1 vm.2).
  - vm_compute. discriminate.
  - vm_compute. discriminate.
  - vm_compute. reflexivity.
Defined.

Lemma pop_back_size Types v m :
  size_ (pop_back Types v m).1 = to_size_t (size_ v - 1).
Proof. done. Qed.

(** X5.  After any run of push_back and pop_back calls in which every pop
    finds an element and every push finds fewer than 2^22, size() is the
    size before plus the number of pushes minus the number of pops. *)
Theorem size_counts_pushes_and_pops Types os v m :
  0 ≤ size v < 2 ^ 64 → pops_guarded os (size v) →
  size (push_pop_all Types os (v, m)).1 = size_after os (size v).
Proof.
  unfold size, push_pop_all. revert v m.
  induction os as [|[args|] os IH]; intros v m Hs Hg; [done| |].
  - destruct Hg as [Hb Hg]. unfold exact_growth_bound in Hb.
    cbn [foldl push_pop size_after fst snd].
    destruct (push_back Types args v m) as [v' m'] eqn:Hpush.
    assert (size_ v' = size_ v + 1) as Hs'.
    { pose proof (push_back_size Types args v m) as H. rewrite Hpush in H.
      simpl in H. rewrite H. apply to_size_t_small. lia. }
    rewrite <- Hs'. apply IH; rewrite Hs'; [lia|done].
  - destruct Hg as [Hb Hg].
    cbn [foldl push_pop size_after fst snd].
    destruct (pop_back Types v m) as [v' m'] eqn:Hpop.
    assert (size_ v' = size_ v - 1) as Hs'.
    { pose proof (pop_back_size Types v m) as H. rewrite Hpop in H.
      simpl in H. rewrite H. apply to_size_t_small. lia. }
    rewrite <- Hs'. apply IH; rewrite Hs'; [lia|done].
Qed.

Lemma size_counts_pushes_and_pops_witness :
  let os := [ Some [le_bytes 2 0; le_bytes 32 1000; le_bytes 8 123];
              Some [le_bytes 2 1; le_bytes 32 1001; le_bytes 8 234];
              Some [le_bytes 2 2; le_bytes 32 1002; le_bytes 8 345];
              None ] in
  size (push_pop_all main_types os (SOAVector_default main_types, empty_mem)).1
    = size_after os (size (SOAVector_default main_types)).
Proof.
  intros os.
  apply (size_counts_pushes_and_pops main_types os (SOAVector_default main_types)
           empty_mem).
  - split; vm_compute; [discriminate | reflexivity].
  - cbn [pops_guarded os]. repeat split; vm_compute; reflexivity.
Defined.

(** X6.  clear() destroys the elements and nothing else: size() becomes 0,
    capacity(), the array pointers and every byte of the heap stay; a
    push_back after it (capacity at least 1) therefore reuses the block:
    no allocation, same array pointers, same capacity, size() == 1. *)
Theorem clear_keeps_the_allocation Types args v m :
  1 ≤ capacity v < 2 ^ 64 →
  clear Types v m = (set_size 0 v, m) ∧
  array_ptrs_ (push_back Types args (clear Types v m).1 (clear Types v m).2).1
    = array_ptrs_ v ∧
  capacity (push_back Types args (clear Types v m).1 (clear Types v m).2).1
    = capacity v ∧
  size (push_back Types args (clear Types v m).1 (clear Types v m).2).1 = 1 ∧
  next_block (push_back Types args (clear Types v m).1 (clear Types v m).2).2
    = next_block m.
Proof.
  intros Hc.
  assert (clear Types v m = (set_size 0 v, m)) as ->.
  { rewrite (surjective_pairing (clear Types v m)), clear_mem. done. }
  split; [done|]. cbn [fst snd].
  destruct (push_back_spare_writes Types args (set_size 0 v) m)
    as (Hv & _ & _ & Hn); unfold size, capacity in *; simpl; try lia.
  rewrite Hv, Hn. done.
Qed.

Lemma clear_keeps_the_allocation_witness :
  let args := [le_bytes 2 9; le_bytes 8 90] in
  let v := short_double_pushed.1 in
  let m := short_double_pushed.2 in
  clear short_double v m = (set_size 0 v, m) ∧
  array_ptrs_ (push_back short_double args (clear short_double v m).1
                 (clear short_double v m).2).1 = array_ptrs_ v ∧
  capacity (push_back short_double args (clear short_double v m).1
              (clear short_double v m).2).1 = capacity v ∧
  size (push_back short_double args (clear short_double v m).1
          (clear short_double v m).2).1 = 1 ∧
  next_block (push_back short_double args (clear short_double v m).1
                (clear short_double v m).2).2 = next_block m.
Proof.
  intros args v m. apply (clear_keeps_the_allocation short_double args v m).
  split; vm_compute; [discriminate | reflexivity].
Defined.

(** ** Constructors and copy assignment *)










(** ** Allocation and release *)

Lemma offsets_loop_first Types szs (n i : nat) offsets p :
  (1 ≤ i)%nat →
  (offsets_loop Types szs n i (offsets, p)).1 !! 0%nat = offsets !! 0%nat.
Proof.
  revert i offsets p. induction n as [|n IH]; intros i offsets p Hi; [done|].
  rewrite offsets_loop_S. unfold offsets_step at 1.
  rewrite IH by lia. apply list_lookup_insert_ne. lia.
Qed.

(** Array 0 always starts the block. *)
Lemma first_offset_zero Types n :
  Types ≠ [] → (getArrayOffsetsAndAllocationSize Types n).1 !! 0%nat = Some 0.
Proof.
  intros Hne. unfold getArrayOffsetsAndAllocationSize.
  pose proof (offsets_loop_first Types (sizes Types n) (N Types - 1) 1
                (replicate (N Types) 0) (to_ptrdiff_t (alignments Types !!! 0%nat))
                (le_n 1)) as H.
  destruct (offsets_loop Types (sizes Types n) (N Types - 1) 1 _) as [offs p].
  simpl in *. rewrite H. destruct Types; [done|]. done.
Qed.

Lemma reallocate_first_ptr Types n v m :
  Types ≠ [] →
  array_ptrs_ (reallocate Types n v m).1 !!! 0%nat = Ptr (next_block m) 0.
Proof.
  intros Hne. destruct (reallocate_spec Types n v m) as (-> & _ & _).
  rewrite list_lookup_total_alt, list_lookup_fmap, first_offset_zero by done.
  done.
Qed.

(** The blocks after [reallocate]: the new one is there, the old one is
    gone when the capacity was positive, the others are as before. *)
Lemma reallocate_shape Types n v m blk :
  is_Some (blocks (reallocate Types n v m).2 !! blk) ↔
  (blk = next_block m ∨ is_Some (blocks m !! blk)) ∧
  ¬ (0 < capacity_ v ∧
     ∃ b, array_ptrs_ v !!! 0%nat = Ptr b 0 ∧ blk = b ∧
          (b = next_block m ∨ is_Some (blocks m !! b))).
Proof.
  unfold reallocate.
  destruct (getArrayOffsetsAndAllocationSize Types n) as [offs tot]. simpl.
  set (m0 := assert (size_ v <=? n) m).
  assert (next_block m0 = next_block m ∧ blocks m0 = blocks m) as [Hn0 Hb0]
    by (unfold m0; by destruct (size_ v <=? n)).
  rewrite Hn0.
  set (m1 := {| blocks := <[next_block m := replicate (Z.to_nat tot) x00]> (blocks m0);
                next_block := S (next_block m); ub := ub m0 |}).
  match goal with |- context [if 0 <? size_ v then ?a else m1] =>
    set (m2 := if 0 <? size_ v then a else m1) end.
  assert (same_shape m1 m2) as Hs2.
  { unfold m2. destruct (0 <? size_ v); [|apply same_shape_refl].
    eapply (for_each_type_writes_within (λ _, True)). intros j T mj.
    eapply writes_within_mono; [|apply moveElements_writes_within]. done. }
  assert (∀ b, is_Some (blocks m2 !! b) ↔ b = next_block m ∨ is_Some (blocks m !! b))
    as Hm2.
  { intros b. rewrite <- !fmap_is_Some with (f := length), Hs2. unfold m1. simpl.
    rewrite !fmap_is_Some, Hb0. rewrite lookup_insert_is_Some. 
    destruct (decide (next_block m = b)); naive_solver. }
  destruct (Z.ltb_spec 0 (capacity_ v)) as [Hcap|Hcap].
  - destruct (array_ptrs_ v !!! 0%nat) as [|b off] eqn:Hp; simpl.
    + rewrite Hm2. naive_solver.
    + destruct off as [|off|off]; simpl; try (rewrite Hm2; naive_solver).
      destruct (blocks m2 !! b) as [bs|] eqn:Hb; simpl.
      * rewrite lookup_delete_is_Some, Hm2.
        assert (b = next_block m ∨ is_Some (blocks m !! b)) by (apply Hm2; eauto).
        naive_solver.
      * rewrite Hm2.
        assert (¬ (b = next_block m ∨ is_Some (blocks m !! b))) as Hnot.
        { rewrite <- Hm2, Hb. by intros [? ?]. }
        naive_solver.
  - rewrite Hm2. split; [|tauto]. intros H. split; [done|]. lia.
Qed.

Lemma same_shape_empty m m' : same_shape m m' → blocks m = ∅ → blocks m' = ∅.
Proof.
  intros Hs He. apply map_eq. intros blk. rewrite lookup_empty.
  specialize (Hs blk). rewrite He, lookup_empty in Hs.
  by destruct (blocks m' !! blk).
Qed.

Lemma same_shape_is_Some m m' blk :
  same_shape m m' → is_Some (blocks m' !! blk) ↔ is_Some (blocks m !! blk).
Proof. intros Hs. by rewrite <- !fmap_is_Some with (f := length), Hs. Qed.

Lemma sole_owner_writes S v v' m m' :
  sole_owner v m → writes_within S m m' →
  array_ptrs_ v' = array_ptrs_ v → capacity_ v' = capacity_ v →
  sole_owner v' m'.
Proof.
  intros (Hc & H0 & Hpos) (_ & Hs & Hn) Hp Hcap. unfold sole_owner.
  rewrite Hp, Hcap, Hn. split; [done|]. split.
  - intros Hz. eapply same_shape_empty; eauto.
  - intros Hlt. destruct (Hpos Hlt) as (b & Hb & Hne & Hdom).
    exists b. split; [done|]. split; [done|].
    intros blk. by rewrite same_shape_is_Some.
Qed.

Lemma sole_owner_reallocate Types n v m :
  Types ≠ [] → sole_owner v m → 0 < n →
  sole_owner (reallocate Types n v m).1 (reallocate Types n v m).2.
Proof.
  intros Hne (Hc & H0 & Hpos) Hn. unfold sole_owner.
  rewrite reallocate_capacity, reallocate_first_ptr by done.
  destruct (reallocate_spec Types n v m) as (_ & -> & _).
  split; [lia|]. split; [lia|]. intros _. exists (next_block m).
  split; [done|]. split; [lia|]. intros blk.
  rewrite reallocate_shape.
  destruct (Z.le_gt_cases (capacity_ v) 0) as [Hle|Hgt].
  - assert (capacity_ v = 0) as Hz by lia. rewrite (H0 Hz), lookup_empty.
    split.
    + intros [[?|[? ?]] _]; done.
    + intros ->. split; [by left|]. intros [? _]. lia.
  - destruct (Hpos Hgt) as (b & Hb & Hbn & Hdom). rewrite Hb. split.
    + intros [[?|Hsome] Hnot]; [done|]. apply Hdom in Hsome as ->.
      exfalso. apply Hnot. split; [done|]. exists b.
      split; [done|]. split; [done|]. right. by apply Hdom.
    + intros ->. split; [by left|]. intros (_ & b' & Heq & Hnb & _).
      injection Heq as <-. congruence.
Qed.

Lemma sole_owner_reserve Types n v m :
  Types ≠ [] → sole_owner v m → 0 ≤ n →
  sole_owner (reserve Types n v m).1 (reserve Types n v m).2.
Proof.
  intros Hne Hso Hn. unfold reserve.
  destruct (Z.ltb_spec (capacity_ v) n); [|done].
  apply sole_owner_reallocate; [done..|]. destruct Hso as [Hc _]. lia.
Qed.

Lemma growth_target_nonneg n c : growth_target n = Some c → 0 ≤ c.
Proof.
  unfold growth_target.
  destruct (float_add _ _) as [s|s| |[] mx ex]; simpl; try done.
  - by intros [= <-].
  - destruct (Z.pos mx <? 2 ^ (- ex)); [by intros [= <-]|done].
  - destruct (_ <? 2 ^ 64); [|done]. intros [= <-].
    destruct (Z.leb_spec 0 ex).
    + apply Z.mul_nonneg_nonneg; [lia|]. apply Z.pow_nonneg. lia.
    + apply Z.div_pos; [lia|]. apply Z.pow_pos_nonneg; lia.
Qed.

Lemma pop_back_writes_within Types S v m :
  writes_within S m (pop_back Types v m).2.
Proof.
  unfold pop_back. cbn [snd]. rewrite for_each_type_id by done.
  apply assert_writes_within.
Qed.

Lemma sole_owner_push_back Types args v m :
  Types ≠ [] → sole_owner v m →
  sole_owner (push_back Types args v m).1 (push_back Types args v m).2.
Proof.
  intros Hne Hso. unfold push_back.
  set (vm1 := if capacity_ v <? to_size_t (size_ v + 1)
              then match growth_target (size_ v) with
                   | Some new_capacity => reserve Types new_capacity v m
                   | None => (v, fault m)
                   end
              else (v, m)).
  assert (sole_owner vm1.1 vm1.2) as Hso1.
  { unfold vm1. destruct (capacity_ v <? to_size_t (size_ v + 1)); [|done].
    destruct (growth_target (size_ v)) as [c|] eqn:Hc.
    - apply sole_owner_reserve; [done..|]. by eapply growth_target_nonneg.
    - eapply sole_owner_writes; [exact Hso|apply (fault_writes_within (λ _, True))|done..]. }
  destruct vm1 as [v1 m1]. cbn [fst snd] in *.
  eapply sole_owner_writes; [exact Hso1| |done..].
  apply (for_each_type_writes_within (λ _, True)). intros j T mj.
  eapply writes_within_mono; [|apply createElement_writes_within]. done.
Qed.

Lemma sole_owner_exec Types o this st :
  Types ≠ [] → member_of o = Some this → grows_only o →
  sole_owner (obj st this) (heap st) →
  sole_owner (obj (exec Types o st) this) (heap (exec Types o st)).
Proof.
  intros Hne Ho Hg Hso. destruct o; simpl in Ho, Hg; try done;
    injection Ho as ->; cbn [exec]; rewrite call_obj_eq, call_heap.
  - rewrite (surjective_pairing (clear Types _ _)), clear_mem. cbn [fst snd].
    eapply sole_owner_writes; [exact Hso|apply (writes_within_refl (λ _, True))|done..].
  - by apply sole_owner_push_back.
  - eapply sole_owner_writes;
      [exact Hso|apply (pop_back_writes_within Types (λ _, True))|done..].
  - by apply sole_owner_reserve.
Qed.

(** X10.  A container that is default-constructed on an empty heap and
    then used through any run of clear, push_back, pop_back and reserve
    calls owns exactly one block, or none while its capacity is 0; the
    destructor releases it: afterwards the heap holds no block. *)
Theorem destructor_leaves_no_block Types ops this :
  Types ≠ [] →
  Forall (λ o, member_of o = Some this ∧ grows_only o) ops →
  sole_owner (obj (run Types ops (exec Types (Construct this) no_objects)) this)
    (heap (run Types ops (exec Types (Construct this) no_objects))) ∧
  blocks (heap (exec Types (Destroy this)
                  (run Types ops (exec Types (Construct this) no_objects)))) = ∅.
Proof.
  intros Hne Hops.
  assert (∀ st, sole_owner (obj st this) (heap st) →
            sole_owner (obj (run Types ops st) this) (heap (run Types ops st)))
    as Hrun.
  { induction Hops as [|o ops [Hm Hg] _ IH]; intros st Hso; [done|].
    simpl. apply IH. by apply sole_owner_exec. }
  assert (sole_owner (obj (exec Types (Construct this) no_objects) this)
            (heap (exec Types (Construct this) no_objects))) as Hinit.
  { cbn [exec]. rewrite obj_insert_eq. cbn [heap no_objects].
    split; [done|]. split; [done|]. simpl. lia. }
  specialize (Hrun _ Hinit). split; [done|].
  set (st := run Types ops (exec Types (Construct this) no_objects)) in *.
  destruct Hrun as (Hc & H0 & Hpos). cbn [exec heap]. unfold SOAVector_destroy.
  destruct (Z.eqb_spec (capacity_ (obj st this)) 0) as [Hz|Hnz]; [by apply H0|].
  destruct Hpos as (b & Hb & Hbn & Hdom); [lia|].
  assert ((if 0 <? size_ (obj st this)
           then for_each_type (λ type_index T m,
                  deleteElements T (array_ptrs_ (obj st this) !!! type_index)
                    (array_ptrs_ (obj st this) !!! type_index
                       +ₚ to_size_t (size_ (obj st this) * sizeof T)) m)
                  0 Types (heap st)
           else heap st) = heap st) as ->.
  { destruct (0 <? size_ (obj st this)); [|done].
    apply for_each_type_id. intros. apply deleteElements_mem. }
  rewrite Hb. simpl.
  destruct (blocks (heap st) !! b) as [bs|] eqn:Hbs.
  - simpl. apply map_eq. intros blk. rewrite lookup_empty.
    destruct (decide (blk = b)) as [->|Hneq]; [apply lookup_delete_eq|].
    rewrite lookup_delete_ne by done.
    destruct (blocks (heap st) !! blk) eqn:Hblk; [|done].
    exfalso. apply Hneq. apply Hdom. by rewrite Hblk.
  - exfalso. assert (is_Some (blocks (heap st) !! b)) as [? Hs] by (by apply Hdom).
    congruence.
Qed.

Lemma destructor_leaves_no_block_witness :
  let ops := [ PushBack 0 [le_bytes 2 0; le_bytes 32 1000; le_bytes 8 123];
               PushBack 0 [le_bytes 2 1; le_bytes 32 1001; le_bytes 8 234];
               PopBack 0; Reserve 0 9; Clear 0 ]%nat in
  sole_owner
    (obj (run main_types ops (exec main_types (Construct 0%nat) no_objects)) 0%nat)
    (heap (run main_types ops (exec main_types (Construct 0%nat) no_objects))) ∧
  blocks (heap (exec main_types (Destroy 0%nat)
                  (run main_types ops (exec main_types (Construct 0%nat) no_objects))))
    = ∅.
Proof.
  intros ops. apply (destructor_leaves_no_block main_types ops 0%nat).
  - discriminate.
  - repeat constructor. simpl. lia.
Defined.

(** X11.  shrink_to_fit on a container that holds no element but has
    capacity allocates a new block and sets the capacity to 0 while the
    array pointers point into that block; the destructor then returns at
    once, so the block stays allocated. *)
Theorem shrink_to_fit_on_empty_leaks Types v m :
  Types ≠ [] → size v = 0 → 0 < capacity v →
  ptr_block (array_ptrs_ v !!! 0%nat) ≠ Some (next_block m) →
  capacity (shrink_to_fit Types v m).1 = 0 ∧
  array_ptrs_ (shrink_to_fit Types v m).1 !!! 0%nat = Ptr (next_block m) 0 ∧
  is_Some (blocks (shrink_to_fit Types v m).2 !! next_block m) ∧
  SOAVector_destroy Types (shrink_to_fit Types v m).1 (shrink_to_fit Types v m).2
    = (shrink_to_fit Types v m).2.
Proof.
  unfold size, capacity. intros Hne Hs Hc Hfresh. unfold shrink_to_fit.
  destruct (Z.ltb_spec (size_ v) (capacity_ v)); [|lia].
  rewrite reallocate_first_ptr by done.
  assert (capacity_ (reallocate Types (size_ v) v m).1 = 0) as Hcap
    by (by rewrite reallocate_capacity).
  split; [done|]. split; [done|]. split.
  - apply reallocate_shape. split; [by left|].
    intros (_ & b & Hb & Heq & _). apply Hfresh. rewrite Hb. simpl. congruence.
  - unfold SOAVector_destroy. by rewrite Hcap.
Qed.

Lemma shrink_to_fit_on_empty_leaks_witness :
  let vm := clear short_double short_double_pushed.1 short_double_pushed.2 in
  capacity (shrink_to_fit short_double vm.1 vm.2).1 = 0 ∧
  array_ptrs_ (shrink_to_fit short_double vm.1 vm.2).1 !!! 0%nat
    = Ptr (next_block vm.2) 0 ∧
  is_Some (blocks (shrink_to_fit short_double vm.1 vm.2).2 !! next_block vm.2) ∧
  SOAVector_destroy short_double (shrink_to_fit short_double vm.1 vm.2).1
    (shrink_to_fit short_double vm.1 vm.2).2
    = (shrink_to_fit short_double vm.1 vm.2).2.
Proof.
  intros vm. apply (shrink_to_fit_on_empty_leaks short_double vm.1 vm.2).
  - discriminate.
  - reflexivity.
  - reflexivity.
  - vm_compute. discriminate.
Defined.

(** X12.  A reserve beyond the capacity of a container that holds a block
    moves it to exactly one new block, the next one of the allocator: the
    old block is released, the container points into the new block only,
    and no other block appears, disappears or changes. *)
Theorem reserve_moves_to_one_new_block Types n v m b :
  capacity v < n → 0 < capacity v →
  array_ptrs_ v !!! 0%nat = Ptr b 0 → is_Some (blocks m !! b) → b ≠ next_block m →
  blocks (reserve Types n v m).2 !! b = None ∧
  is_Some (blocks (reserve Types n v m).2 !! next_block m) ∧
  next_block (reserve Types n v m).2 = S (next_block m) ∧
  (∀ blk, blk ∈ storage (reserve Types n v m).1 → blk = next_block m) ∧
  ∀ blk, blk ≠ b → blk ≠ next_block m →
    blocks (reserve Types n v m).2 !! blk = blocks m !! blk.
Proof.
  unfold capacity. intros Hn Hc Hb Hlive Hfresh. unfold reserve.
  destruct (Z.ltb_spec (capacity_ v) n); [|lia].
  destruct (reallocate_spec Types n v m) as (_ & Hnext & Hout).
  split; [|split; [|split; [done|split]]].
  - apply eq_None_not_Some. rewrite reallocate_shape. intros [_ Hnot].
    apply Hnot. split; [done|]. exists b. split; [done|]. split; [done|]. by right.
  - apply reallocate_shape. split; [by left|].
    intros (_ & b' & Hb' & <- & _). rewrite Hb in Hb'. congruence.
  - intros blk. apply reallocate_storage.
  - intros blk Hnb Hnn. apply Hout. rewrite Hb. unfold block_of. simpl.
    intros [?|?]; congruence.
Qed.

Lemma reserve_moves_to_one_new_block_witness :
  let v := short_double_pushed.1 in
  let m := short_double_pushed.2 in
  blocks (reserve short_double 8 v m).2 !! 1%nat = None ∧
  is_Some (blocks (reserve short_double 8 v m).2 !! next_block m) ∧
  next_block (reserve short_double 8 v m).2 = S (next_block m) ∧
  (∀ blk, blk ∈ storage (reserve short_double 8 v m).1 → blk = next_block m) ∧
  ∀ blk, blk ≠ 1%nat → blk ≠ next_block m →
    blocks (reserve short_double 8 v m).2 !! blk = blocks m !! blk.
Proof.
  intros v m. apply (reserve_moves_to_one_new_block short_double 8 v m 1%nat).
  - vm_compute. reflexivity.
  - vm_compute. reflexivity.
  - reflexivity.
  - vm_compute. eexists. reflexivity.
  - vm_compute. discriminate.
Defined.

(** ** The layout and the elements of array 0 *)

(** X13.  With two or more declared types whose layout does not overflow,
    the offset of array 1 is the alignment of type 0 rounded up to the
    alignment of type 1, whatever the capacity; once
    capacity * sizeof(type 0) reaches alignof(type 0) + alignof(type 1),
    array 1 starts inside the sub-range of array 0. *)
Theorem second_array_starts_inside_first T0 T1 Ts capacity :
  Forall type_ok (T0 :: T1 :: Ts) → layout_fits (T0 :: T1 :: Ts) capacity →
  alignof T0 + alignof T1 ≤ capacity * sizeof T0 →
  ∃ o1,
    (getArrayOffsetsAndAllocationSize (T0 :: T1 :: Ts) capacity).1 !! 0%nat = Some 0 ∧
    (getArrayOffsetsAndAllocationSize (T0 :: T1 :: Ts) capacity).1 !! 1%nat = Some o1 ∧
    o1 = round_up (alignof T0) (alignof T1) ∧
    0 < o1 < 0 + capacity * sizeof T0.
Proof.
  intros Hok Hfit Hcap. exists (round_up (alignof T0) (alignof T1)).
  rewrite first_offset_zero by done. rewrite layout_second_offset by done.
  split; [done|]. split; [done|]. split; [done|].
  inversion_clear Hok as [|? ? [_ Ha0] Hok']. inversion_clear Hok' as [|? ? [_ Ha1] _].
  pose proof (round_up_bounds (alignof T0) (alignof T1) Ha1). lia.
Qed.

Lemma second_array_starts_inside_first_witness :
  ∃ o1,
    (getArrayOffsetsAndAllocationSize [int16_t; std_string; double] 5).1 !! 0%nat
      = Some 0 ∧
    (getArrayOffsetsAndAllocationSize [int16_t; std_string; double] 5).1 !! 1%nat
      = Some o1 ∧
    o1 = round_up (alignof int16_t) (alignof std_string) ∧
    0 < o1 < 0 + 5 * sizeof int16_t.
Proof.
  apply (second_array_starts_inside_first int16_t std_string [double] 5).
  - repeat constructor.
  - split; [lia | reflexivity].
  - vm_compute. discriminate.
Defined.

Lemma reallocate_new_block_length Types n v m bs :
  blocks (reallocate Types n v m).2 !! next_block m = Some bs →
  length bs = Z.to_nat (getArrayOffsetsAndAllocationSize Types n).2.
Proof.
  unfold reallocate.
  destruct (getArrayOffsetsAndAllocationSize Types n) as [offs tot]. simpl.
  set (m0 := assert (size_ v <=? n) m).
  assert (next_block m0 = next_block m) as Hn0
    by (unfold m0; by destruct (size_ v <=? n)).
  rewrite Hn0.
  set (m1 := {| blocks := <[next_block m := replicate (Z.to_nat tot) x00]> (blocks m0);
                next_block := S (next_block m); ub := ub m0 |}).
  match goal with |- context [if 0 <? size_ v then ?a else m1] =>
    set (m2 := if 0 <? size_ v then a else m1) end.
  assert (same_shape m1 m2) as Hs2.
  { unfold m2. destruct (0 <? size_ v); [|apply same_shape_refl].
    eapply (for_each_type_writes_within (λ _, True)). intros j T mj.
    eapply writes_within_mono; [|apply moveElements_writes_within]. done. }
  assert (∀ bs', blocks m2 !! next_block m = Some bs' →
                 length bs' = Z.to_nat tot) as Hlen.
  { intros bs' Hbs'. specialize (Hs2 (next_block m)). rewrite Hbs' in Hs2.
    unfold m1 in Hs2. simpl in Hs2. rewrite lookup_insert_eq in Hs2. simpl in Hs2.
    rewrite length_replicate in Hs2. congruence. }
  intros Hbs. apply Hlen.
  destruct (0 <? capacity_ v); [|done].
  destruct (array_ptrs_ v !!! 0%nat) as [|b off]; [done|]. simpl in Hbs.
  destruct off; try done.
  destruct (blocks m2 !! b); [|done]. simpl in Hbs.
  by apply lookup_delete_Some in Hbs as [_ ?].
Qed.

Lemma store_out_of_bounds b off v m :
  (∀ bs, blocks m !! b = Some bs → Z.of_nat (length bs) < off + Z.of_nat (length v)) →
  ub (store (Ptr b off) v m) = true.
Proof.
  intros Hlen. simpl. destruct (blocks m !! b) as [bs|] eqn:Hb; [|done].
  specialize (Hlen bs eq_refl). unfold in_bounds.
  destruct (Z.leb_spec (off + Z.of_nat (length v)) (Z.of_nat (length bs))); [lia|].
  by rewrite andb_false_r.
Qed.

(** X14.  With a single declared type the allocated block has alignof(T)
    bytes whatever the capacity, so a push_back that has to grow a
    container already holding an element writes outside the block: the
    execution leaves defined behaviour. *)
Theorem single_type_push_overflows T args v m :
  type_ok T → alignof T ≤ sizeof T →
  1 ≤ size v < exact_growth_bound → capacity v < size v + 1 →
  layout_fits [T] (3 * size v / 2 + 1) →
  (getArrayOffsetsAndAllocationSize [T] (3 * size v / 2 + 1)).2 = alignof T ∧
  ub (push_back [T] args v m).2 = true.
Proof.
  unfold size, capacity. intros Hok Has Hs Hc Hfit.
  pose proof (layout_single_total T _ Hok Hfit) as Hlay.
  split; [by rewrite Hlay|].
  destruct Hok as [Hs0 Ha0]. destruct Hfit as [Hcap0 Hfit].
  simpl in Hfit. unfold exact_growth_bound in Hs.
  assert (size_ v ≤ 3 * size_ v / 2) by (apply Z.div_le_lower_bound; lia).
  unfold push_back. rewrite to_size_t_small by lia.
  destruct (Z.ltb_spec (capacity_ v) (size_ v + 1)); [|lia].
  rewrite growth_target_exact by (unfold exact_growth_bound; lia).
  unfold reserve.
  destruct (Z.ltb_spec (capacity_ v) (3 * size_ v / 2 + 1)); [|lia].
  pose proof (reallocate_new_block_length [T] (3 * size_ v / 2 + 1) v m) as Hlen.
  pose proof (reallocate_first_ptr [T] (3 * size_ v / 2 + 1) v m ltac:(done)) as Hptr.
  pose proof (reallocate_size [T] (3 * size_ v / 2 + 1) v m) as Hsize.
  destruct (reallocate [T] (3 * size_ v / 2 + 1) v m) as [v1 m1].
  cbn [fst snd for_each_type] in *. rewrite Hlay in Hlen. cbn [snd] in Hlen.
  rewrite Hptr, Hsize. unfold createElement. cbn [ptr_add]. apply store_out_of_bounds.
  intros bs Hbs. rewrite (Hlen bs Hbs). unfold object_repr.
  rewrite length_resize, !Z2Nat.id by lia.
  rewrite to_size_t_small by nia. nia.
Qed.

Lemma single_type_push_overflows_witness :
  let vm := push_back [int32_t] [le_bytes 4 1] (SOAVector_default [int32_t]) empty_mem in
  (getArrayOffsetsAndAllocationSize [int32_t] (3 * size vm.1 / 2 + 1)).2
    = alignof int32_t ∧
  ub (push_back [int32_t] [le_bytes 4 2] vm.1 vm.2).2 = true.
Proof.
  intros vm. apply (single_type_push_overflows int32_t [le_bytes 4 2] vm.1 vm.2).
  - split; reflexivity.
  - vm_compute. discriminate.
  - split; vm_compute; [discriminate | reflexivity].
  - vm_compute. reflexivity.
  - split; [vm_compute; discriminate | reflexivity].
Defined.

(** ** Ownership after a move *)




(** ** Values written and read back *)

Lemma load_store_same b off v m bs :
  blocks m !! b = Some bs → in_bounds off (Z.of_nat (length v)) bs = true →
  load (Ptr b off) (Z.of_nat (length v)) (store (Ptr b off) v m) = Some v.
Proof.
  intros Hb Hin. simpl. rewrite Hb, Hin. simpl. rewrite lookup_insert_eq.
  pose proof (in_bounds_length off v bs Hin) as Hlen.
  set (bs' := take (Z.to_nat off) bs ++ v ++ drop (Z.to_nat off + length v) bs) in *.
  assert (in_bounds off (Z.of_nat (length v)) bs' = true) as ->
    by (unfold in_bounds in *; by rewrite Hlen).
  unfold in_bounds in Hin.
  apply andb_prop in Hin as [Hin Hhi]. apply andb_prop in Hin as [Hlo _].
  apply Z.leb_le in Hlo, Hhi.
  rewrite Nat2Z.id. f_equal. unfold bs'.
  rewrite drop_app_length' by (rewrite length_take; lia).
  by rewrite take_app_length.
Qed.

Lemma store_defined p v m :
  ub (store p v m) = false →
  ∃ b off bs, p = Ptr b off ∧ blocks m !! b = Some bs ∧
              in_bounds off (Z.of_nat (length v)) bs = true.
Proof.
  destruct p as [|b off]; [done|]. simpl.
  destruct (blocks m !! b) as [bs|] eqn:Hb; [|done].
  destruct (in_bounds off (Z.of_nat (length v)) bs) eqn:Hin; [|done].
  intros _. by exists b, off, bs.
Qed.

Lemma for_each_type_snoc {A} (f : nat → TypeInfo → A → A) i Ts T a :
  for_each_type f i (Ts ++ [T]) a
    = f (i + length Ts)%nat T (for_each_type f i Ts a).
Proof.
  revert i a. induction Ts as [|T' Ts IH]; intros i a.
  - simpl. by rewrite Nat.add_0_r.
  - simpl. rewrite IH. f_equal. lia.
Qed.

Lemma push_back_grown_size Types args v m :
  ∃ v1 m1, size_ v1 = size_ v ∧
    push_back Types args v m =
      (set_size (to_size_t (size_ v + 1)) v1,
       for_each_type (λ type_index T m0,
         createElement T
           (array_ptrs_ v1 !!! type_index +ₚ to_size_t (size_ v1 * sizeof T))
           (args !!! type_index) m0) 0 Types m1).
Proof.
  unfold push_back.
  destruct (capacity_ v <? to_size_t (size_ v + 1)).
  - destruct (growth_target (size_ v)) as [c|].
    + pose proof (reserve_size Types c v m) as Hs.
      destruct (reserve Types c v m) as [v1 m1]. simpl in Hs.
      exists v1, m1. by rewrite Hs.
    + by exists v, (fault m).
  - by exists v, m.
Qed.

(** X16.  When a push_back stays within defined behaviour, the value it
    constructs in the last array is the one get reads there at the old
    size, the new last position, and the one back returns. *)
Theorem push_back_last_array_reads_back Ts T args v m :
  0 ≤ sizeof T → 0 ≤ size v < 2 ^ 64 - 1 → size v * sizeof T < 2 ^ 64 →
  ub (push_back (Ts ++ [T]) args v m).2 = false →
  get (Ts ++ [T]) (length Ts) (size v)
    (push_back (Ts ++ [T]) args v m).1 (push_back (Ts ++ [T]) args v m).2
  = Some (object_repr T (args !!! length Ts)) ∧
  back (Ts ++ [T]) (length Ts)
    (push_back (Ts ++ [T]) args v m).1 (push_back (Ts ++ [T]) args v m).2
  = Some (object_repr T (args !!! length Ts)).
Proof.
  unfold size. intros HT Hs Hmul Hub.
  assert (size_ (push_back (Ts ++ [T]) args v m).1 = size_ v + 1) as Hsz.
  { pose proof (push_back_size (Ts ++ [T]) args v m) as Hps.
    unfold size in Hps. rewrite Hps. apply to_size_t_small. lia. }
  assert (get (Ts ++ [T]) (length Ts) (size_ v)
            (push_back (Ts ++ [T]) args v m).1 (push_back (Ts ++ [T]) args v m).2
          = Some (object_repr T (args !!! length Ts))) as Hget.
  { clear Hsz.
    destruct (push_back_grown_size (Ts ++ [T]) args v m) as (v1 & m1 & Hs1 & Hpush).
    rewrite Hpush in Hub |- *. cbn [fst snd] in *.
    rewrite for_each_type_snoc in Hub |- *. cbn [Nat.add] in *.
    unfold createElement in *.
    set (m0 := for_each_type _ 0 Ts m1) in *.
    set (val := object_repr T (args !!! length Ts)) in *.
    assert (Z.of_nat (length val) = sizeof T) as Hlen.
    { unfold val, object_repr. rewrite length_resize, Z2Nat.id; lia. }
    assert (to_size_t (size_ v1 * sizeof T) = size_ v * sizeof T) as Hoff.
    { rewrite Hs1. apply to_size_t_small. nia. }
    rewrite Hoff in Hub |- *.
    apply store_defined in Hub as (b & off & bs & Hp & Hb & Hin).
    unfold get, data, set_size. cbn [size_ array_ptrs_].
    assert ((Ts ++ [T]) !!! length Ts = T) as ->.
    { apply list_lookup_total_correct. rewrite lookup_app_r by lia.
      by rewrite Nat.sub_diag. }
    rewrite to_size_t_small by lia.
    destruct (Z.ltb_spec (size_ v) (size_ v + 1)); [|lia].
    rewrite Hp, <- Hlen. by apply (load_store_same _ _ _ _ bs). }
  split; [done|]. unfold back. rewrite Hsz.
  replace (size_ v + 1 - 1) with (size_ v) by lia.
  by rewrite to_size_t_small by lia.
Qed.

Lemma push_back_last_array_reads_back_witness :
  let v := short_double_pushed.1 in
  let m := short_double_pushed.2 in
  let args := [le_bytes 2 3; le_bytes 8 30] in
  get ([int16_t] ++ [double]) (length [int16_t]) (size v)
    (push_back ([int16_t] ++ [double]) args v m).1
    (push_back ([int16_t] ++ [double]) args v m).2
  = Some (object_repr double (args !!! length [int16_t])) ∧
  back ([int16_t] ++ [double]) (length [int16_t])
    (push_back ([int16_t] ++ [double]) args v m).1
    (push_back ([int16_t] ++ [double]) args v m).2
  = Some (object_repr double (args !!! length [int16_t])).
Proof.
  intros v m args.
  apply (push_back_last_array_reads_back [int16_t] double args v m).
  - vm_compute. discriminate.
  - split; vm_compute; [discriminate | reflexivity].
  - vm_compute. reflexivity.
  - vm_compute. reflexivity.
Defined.

(** ** The range helpers *)







(** ** The earlier revision: self-assignment of any container *)





